(** * tcprofiles: template parsing and profile merging

    A shallow embedding of [main.go] (and of the earlier variant of the same
    program that differs in its parser) together with the properties of the
    parser, the profile lister, the selection check and the merger.

    Go strings are byte strings: they are modelled by [string], whose
    characters are the 256 byte values.  Go [int] is modelled by [Z]; the
    counters of this program are bounded by slice lengths, so the 64-bit
    wrap-around is never reached and is not written out. *)

From Stdlib Require Import ZArith Ascii String.
From stdpp Require Import gmap strings list sorting.

Local Open Scope Z_scope.

(** ** Data model *)

Record kv := KV { key : string; value : string }.

Record sectionLine := SectionLine { profile : string; setting : kv }.

#[global] Instance kv_eq_dec : EqDecision kv.
Proof. solve_decision. Defined.

#[global] Instance sectionLine_eq_dec : EqDecision sectionLine.
Proof. solve_decision. Defined.

Definition defaultProfileName : string := "default".

(** ** Slices of [sectionLine] and their backing arrays

    A Go slice is a window on a backing array that other slices may share.
    The store maps a location to the backing array allocated there. *)

Record slice := Slice { base : nat; off : nat; len : nat; cap : nat }.

Abbreviation store := (gmap nat (list sectionLine)).

(** The elements a slice denotes, when the slice lies inside its array. *)
Definition slice_view (σ : store) (s : slice) : option (list sectionLine) :=
  match σ !! base s with
  | Some arr =>
      if bool_decide ((off s + cap s ≤ length arr)%nat ∧ (len s ≤ cap s)%nat)
      then Some (take (len s) (drop (off s) arr))
      else None
  | None => None
  end.

(** Computations that read and write the store and may panic. *)
Definition M (A : Type) : Type := store → option (A * store).

Definition ret {A} (x : A) : M A := λ σ, Some (x, σ).

Definition bind {A B} (m : M A) (f : A → M B) : M B :=
  λ σ, match m σ with
       | Some (x, σ') => f x σ'
       | None => None
       end.

Definition panic {A} : M A := λ _, None.

Notation "'do' x <- m ; k" := (bind m (λ x, k))
  (at level 10, x name, m at level 100, k at level 200,
   format "'[v' 'do'  x  <-  m ; '/' k ']'").

(** [s[i]]: panics when [i] is out of range. *)
Definition slice_index (s : slice) (i : Z) : M sectionLine :=
  λ σ, if bool_decide (0 ≤ i < Z.of_nat (len s)) then
         match σ !! base s with
         | Some arr =>
             match arr !! (off s + Z.to_nat i)%nat with
             | Some x => Some (x, σ)
             | None => None
             end
         | None => None
         end
       else None.

(** [s[:i]]: the bound is the capacity. *)
Definition slice_to (s : slice) (i : Z) : M slice :=
  if bool_decide (0 ≤ i ≤ Z.of_nat (cap s))
  then ret {| base := base s; off := off s; len := Z.to_nat i; cap := cap s |}
  else panic.

(** [s[i:]]: the bound is the length. *)
Definition slice_from (s : slice) (i : Z) : M slice :=
  if bool_decide (0 ≤ i ≤ Z.of_nat (len s))
  then ret {| base := base s; off := (off s + Z.to_nat i)%nat;
              len := (len s - Z.to_nat i)%nat; cap := (cap s - Z.to_nat i)%nat |}
  else panic.

(** Allocation of a new backing array. *)
Definition alloc (arr : list sectionLine) : M slice :=
  λ σ, let l := fresh (dom σ) in
       Some ({| base := l; off := 0; len := length arr; cap := length arr |},
             <[l := arr]> σ).

(** [append(dst, src...)].  The elements of [src] are read first (the copy
    behaves like memmove on overlapping windows).  When they fit in the
    capacity of [dst] they are written in place after its last element;
    otherwise a new array is allocated. *)
Definition slice_append (dst src : slice) : M slice :=
  λ σ, match slice_view σ src, σ !! base dst with
       | Some vals, Some arr =>
           if bool_decide (len dst + length vals ≤ cap dst)%nat then
             let at_ := (off dst + len dst)%nat in
             Some ({| base := base dst; off := off dst;
                      len := (len dst + length vals)%nat; cap := cap dst |},
                   <[base dst := take at_ arr ++ vals
                                   ++ drop (at_ + length vals) arr]> σ)
           else
             match slice_view σ dst with
             | Some old => alloc (old ++ vals) σ
             | None => None
             end
       | _, _ => None
       end.

(** [slices.Clone(s)]: a copy of the elements in a new backing array.  (Of
    an empty slice Go returns an empty slice of capacity 0, which admits no
    write either.) *)
Definition slices_Clone (s : slice) : M slice :=
  λ σ, match slice_view σ s with
       | Some vals => alloc vals σ
       | None => None
       end.

(** ** fillConfig *)

Definition newline : ascii := ascii_of_N 10.

Definition nl : string := String newline EmptyString.

(** The text of the first [fmt.Fprintf]. *)
Definition header : string := "# Generated by tcprofiles command" +:+ nl +:+ nl.

(** [fmt.Fprintf(config, "%s=%s\n", setting.key, setting.value)] *)
Definition writeSetting (config : string) (s : kv) : string :=
  config +:+ key s +:+ "=" +:+ value s +:+ nl.

(** The variables of the merge loops. *)
Record mergeState := MergeState {
  templateCache : slice;
  settings : list kv;
  settingIdx : gmap string Z
}.

(** The inner loop
    [for i := 0; i < len(templateCache); i++ { ... }]
    entered at index [i].  Every iteration either moves [i] forward or
    shortens [templateCache]; [fuel] bounds the number of iterations. *)
Fixpoint scanCache (fuel : nat) (p : string) (i : Z) (st : mergeState)
  : M mergeState :=
  if bool_decide (i < Z.of_nat (len (templateCache st))) then
    match fuel with
    | O => panic
    | S fuel' =>
        do sl <- slice_index (templateCache st) i ;
        if bool_decide (profile sl ≠ p) then
          (* continue *)
          scanCache fuel' p (i + 1) st
        else
          let settings' := settings st ++ [setting sl] in
          let settingIdx' :=
            <[key (setting sl) := Z.of_nat (length settings') - 1]>
              (settingIdx st) in
          do dst <- slice_to (templateCache st) i ;
          do src <- slice_from (templateCache st) (i + 1) ;
          do cache' <- slice_append dst src ;
          let i := i - 1 in
          scanCache fuel' p (i + 1)
            {| templateCache := cache'; settings := settings';
               settingIdx := settingIdx' |}
    end
  else ret st.

(** The outer loop over [append([]string{defaultProfileName}, selected...)]. *)
Fixpoint eachProfile (ps : list string) (st : mergeState) : M mergeState :=
  match ps with
  | [] => ret st
  | p :: ps' =>
      do st' <- scanCache (len (templateCache st)) p 0 st ;
      eachProfile ps' st'
  end.

(** The final loop [for idx, setting := range settings], from index [idx].
    A key missing from the map reads as 0. *)
Fixpoint emitSettings (settingIdx : gmap string Z) (idx : Z)
    (rest : list kv) (config : string) : string :=
  match rest with
  | [] => config
  | s :: rest' =>
      let config' :=
        if bool_decide (default 0 (settingIdx !! key s) = idx)
        then writeSetting config s else config in
      emitSettings settingIdx (idx + 1) rest' config'
  end.

(** [selected[0]] panics on an empty selection. *)
Definition fillConfig (template : slice) (selected : list string) : M string :=
  let config := header in
  match selected with
  | [] => panic
  | first :: _ =>
      let selected :=
        if bool_decide (first = defaultProfileName) then drop 1 selected
        else selected in
      do templateCache <- slices_Clone template ;
      do st <- eachProfile (defaultProfileName :: selected)
                 {| templateCache := templateCache; settings := [];
                    settingIdx := ∅ |} ;
      ret (emitSettings (settingIdx st) 0 (settings st) config)
  end.

(** The text written for a template held in a valid slice. *)
Definition output (σ : store) (template : slice) (selected : list string)
  : option string :=
  fst <$> fillConfig template selected σ.

(** A store holding exactly one array, and the slice over all of it. *)
Definition store_of (l : list sectionLine) : store := {[ 0%nat := l ]}.
Definition whole (l : list sectionLine) : slice :=
  {| base := 0; off := 0; len := length l; cap := length l |}.

(** ** Library functions used by the parser *)

Definition byte (c : ascii) : Z := Z.of_N (N_of_ascii c).

(** [\w] of Go's regexp syntax: [0-9A-Za-z_]. *)
Definition is_word (c : ascii) : bool :=
  let b := byte c in
  ((48 <=? b) && (b <=? 57)) || ((65 <=? b) && (b <=? 90))
  || ((97 <=? b) && (b <=? 122)) || (b =? 95).

(** White space as [unicode.IsSpace] defines it, on the UTF-8 encoding:
    U+0009..U+000D and U+0020; U+0085 and U+00A0; U+1680, U+2000..U+200A,
    U+2028, U+2029, U+202F, U+205F and U+3000. *)
Definition space1 (c : ascii) : bool :=
  let b := byte c in ((9 <=? b) && (b <=? 13)) || (b =? 32).

Definition space2 (c1 c2 : ascii) : bool :=
  (byte c1 =? 194) && ((byte c2 =? 133) || (byte c2 =? 160)).

Definition space3 (c1 c2 c3 : ascii) : bool :=
  let b1 := byte c1 in let b2 := byte c2 in let b3 := byte c3 in
  ((b1 =? 225) && (b2 =? 154) && (b3 =? 128))
  || ((b1 =? 226) && (b2 =? 128)
      && (((128 <=? b3) && (b3 <=? 138)) || (b3 =? 168) || (b3 =? 169)
          || (b3 =? 175)))
  || ((b1 =? 226) && (b2 =? 129) && (b3 =? 159))
  || ((b1 =? 227) && (b2 =? 128) && (b3 =? 128)).

(** Removal of the leading white-space runes. *)
Fixpoint trimLeft (s : string) : string :=
  match s with
  | String c1 s1 =>
      if space1 c1 then trimLeft s1
      else match s1 with
           | String c2 s2 =>
               if space2 c1 c2 then trimLeft s2
               else match s2 with
                    | String c3 s3 =>
                        if space3 c1 c2 c3 then trimLeft s3 else s
                    | EmptyString => s
                    end
           | EmptyString => s
           end
  | EmptyString => EmptyString
  end.

(** The same on the reversed string: the last byte comes first. *)
Fixpoint trimLeftRev (r : string) : string :=
  match r with
  | String c1 r1 =>
      if space1 c1 then trimLeftRev r1
      else match r1 with
           | String c2 r2 =>
               if space2 c2 c1 then trimLeftRev r2
               else match r2 with
                    | String c3 r3 =>
                        if space3 c3 c2 c1 then trimLeftRev r3 else r
                    | EmptyString => r
                    end
           | EmptyString => r
           end
  | EmptyString => EmptyString
  end.

Definition trimRight (s : string) : string :=
  String.rev (trimLeftRev (String.rev s)).

(** [strings.TrimSpace] *)
Definition TrimSpace (s : string) : string := trimRight (trimLeft s).

(** The results of successive [bf.ReadString('\n')] calls. *)
Inductive readErr := ErrNil | ErrEOF | ErrIO.

#[global] Instance readErr_eq_dec : EqDecision readErr.
Proof. solve_decision. Defined.

(** Reading a file holding [s] to its end: every line with its newline and
    no error, then what is left (possibly nothing) with [io.EOF]. *)
Fixpoint readStrings (s : string) : list (string * readErr) :=
  match s with
  | EmptyString => [(EmptyString, ErrEOF)]
  | String c s' =>
      if bool_decide (c = newline)
      then (String c EmptyString, ErrNil) :: readStrings s'
      else match readStrings s' with
           | (l, e) :: r => (String c l, e) :: r
           | [] => []
           end
  end.

(** ** The regular expressions *)

Fixpoint no_newline (s : string) : bool :=
  match s with
  | EmptyString => true
  | String c s' => negb (bool_decide (c = newline)) && no_newline s'
  end.

Fixpoint all_word (s : string) : bool :=
  match s with
  | EmptyString => true
  | String c s' => is_word c && all_word s'
  end.

(** [.*\]$] : characters other than newline, the last one a bracket. *)
Fixpoint anyThenBracket (s : string) : bool :=
  match s with
  | EmptyString => false
  | String c EmptyString => bool_decide (c = "]"%char)
  | String c s' => negb (bool_decide (c = newline)) && anyThenBracket s'
  end.

(** [sectionRegex.MatchString] for [^\[.*\]$] *)
Definition sectionRegex (s : string) : bool :=
  match s with
  | String c s' => bool_decide (c = "["%char) && anyThenBracket s'
  | EmptyString => false
  end.

(** [validSectionNameRegex.MatchString] for [^[\w\d]+$] *)
Definition validSectionNameRegex (s : string) : bool :=
  match s with
  | EmptyString => false
  | String _ _ => all_word s
  end.

(** The key is made of word characters, none of which is [=]: it ends at
    the first [=] whatever the greediness of its quantifier. *)
Fixpoint splitKey (s : string) : option (string * string) :=
  match s with
  | EmptyString => None
  | String c s' =>
      if bool_decide (c = "="%char) then Some (EmptyString, s')
      else if is_word c then
        match splitKey s' with
        | Some (k, v) => Some (String c k, v)
        | None => None
        end
      else None
  end.

(** [keyValRegex.FindStringSubmatch] for [^([\w]+?)=(.+)$]: the two groups
    of the match, when there is one. *)
Definition keyValRegex (s : string) : option (string * string) :=
  match splitKey s with
  | Some (String c k, String d v) =>
      if no_newline (String d v) then Some (String c k, String d v) else None
  | _ => None
  end.

(** [line[1 : len(line)-1]], taken of a line that has matched the section
    pattern and so has its two brackets. *)
Definition inner (line : string) : string :=
  String.substring 1 (String.length line - 2) line.

(** ** parseTemplate *)

Inductive parseError :=
  | ErrOpen (notExist : bool)
  | ErrRead (lineNum : Z)
  | ErrMalformedSection (p : string) (lineNum : Z)
  | ErrMalformedLine (lineNum : Z) (line : string).

Record parseState := ParseState {
  curProfile : string;
  lineNum : Z;
  lines : list sectionLine
}.

Inductive step :=
  | Continue (st : parseState)
  | Break (st : parseState)
  | Fail (e : parseError).

(** What follows the processing of a line: the test for [io.EOF] at the
    end of the loop body (and in the branch of skipped lines). *)
Definition afterLine (err : readErr) (st : parseState) : step :=
  if bool_decide (err = ErrEOF) then Break st else Continue st.

(** One iteration of the loop of [parseTemplate]. *)
Definition parseLine (st : parseState) (rd : string * readErr) : step :=
  let lineNum := lineNum st + 1 in
  let '(line, err) := rd in
  if bool_decide (err = ErrIO) then Fail (ErrRead lineNum)
  else
    let line := TrimSpace line in
    match line with
    | EmptyString =>
        afterLine err (ParseState (curProfile st) lineNum (lines st))
    | String c _ =>
        if bool_decide (c = "#"%char) then
          afterLine err (ParseState (curProfile st) lineNum (lines st))
        else if sectionRegex line then
          let p := inner line in
          if negb (validSectionNameRegex p) then
            Fail (ErrMalformedSection p lineNum)
          else afterLine err (ParseState p lineNum (lines st))
        else
          match keyValRegex line with
          | None => Fail (ErrMalformedLine lineNum line)
          | Some (k, v) =>
              afterLine err
                (ParseState (curProfile st) lineNum
                   (lines st ++ [SectionLine (curProfile st) (KV k v)]))
          end
    end.

(** The loop, over the results of the reads.  A read past the last result
    returns nothing with [io.EOF], which ends the loop. *)
Fixpoint parseLoop (rds : list (string * readErr)) (st : parseState)
  : parseError + list sectionLine :=
  match rds with
  | [] => inr (lines st)
  | rd :: rds' =>
      match parseLine st rd with
      | Continue st' => parseLoop rds' st'
      | Break st' => inr (lines st')
      | Fail e => inl e
      end
  end.

Definition initState : parseState := ParseState defaultProfileName 0 [].

(** What [os.Open(templateFile)] finds. *)
Inductive file :=
  | FileMissing
  | FileUnreadable
  | FileContent (text : string).

(** Parsing of a template text that is read without error. *)
Definition parseText (text : string) : parseError + list sectionLine :=
  parseLoop (readStrings text) initState.

Definition parseTemplate (f : file) : parseError + list sectionLine :=
  match f with
  | FileMissing => inl (ErrOpen true)
  | FileUnreadable => inl (ErrOpen false)
  | FileContent text => parseText text
  end.

(** ** The parser of the earlier variant of the program

    It differs from the one above in its section pattern, which is not
    anchored at the start of the line and admits word characters only, and
    in skipping malformed lines instead of failing. *)
Module Earlier.

(** One or more word characters, a closing bracket, end of text. *)
Fixpoint wordsThenBracket (s : string) : bool :=
  match s with
  | EmptyString => false
  | String c s' =>
      is_word c
      && (match s' with
          | String d EmptyString => bool_decide (d = "]"%char)
          | _ => false
          end || wordsThenBracket s')
  end.

(** [sectionRegex.MatchString] for [\[[\w\d]+\]$]: a match may start at
    any position of the line. *)
Fixpoint sectionRegex (s : string) : bool :=
  match s with
  | EmptyString => false
  | String c s' =>
      (bool_decide (c = "["%char) && wordsThenBracket s') || sectionRegex s'
  end.

(** [keyValRegex] is [^([A-Za-z0-9_]+)=(.+)$], the same language and the
    same groups as the pattern of [main.go]. *)
Definition keyValRegex (s : string) : option (string * string) :=
  match splitKey s with
  | Some (String c k, String d v) =>
      if no_newline (String d v) then Some (String c k, String d v) else None
  | _ => None
  end.

Inductive step :=
  | Continue (st : parseState)
  | Break (st : parseState)
  | Exit (code : Z).

Definition afterLine (err : readErr) (st : parseState) : step :=
  if bool_decide (err = ErrEOF) then Break st else Continue st.

(** One iteration of the loop.  A malformed line is reported and skipped
    by [continue], which also skips the test for [io.EOF]. *)
Definition parseLine (st : parseState) (rd : string * readErr) : step :=
  let lineNum := lineNum st + 1 in
  let '(line, err) := rd in
  if bool_decide (err = ErrIO) then Exit 1
  else
    let line := TrimSpace line in
    match line with
    | EmptyString =>
        afterLine err (ParseState (curProfile st) lineNum (lines st))
    | String c _ =>
        if bool_decide (c = "#"%char) then
          afterLine err (ParseState (curProfile st) lineNum (lines st))
        else if sectionRegex line then
          let p := inner line in
          afterLine err (ParseState p lineNum (lines st))
        else
          match keyValRegex line with
          | None =>
              Continue (ParseState (curProfile st) lineNum (lines st))
          | Some (k, v) =>
              afterLine err
                (ParseState (curProfile st) lineNum
                   (lines st ++ [SectionLine (curProfile st) (KV k v)]))
          end
    end.

Fixpoint parseLoop (rds : list (string * readErr)) (st : parseState)
  : Z + list sectionLine :=
  match rds with
  | [] => inr (lines st)
  | rd :: rds' =>
      match parseLine st rd with
      | Continue st' => parseLoop rds' st'
      | Break st' => inr (lines st')
      | Exit c => inl c
      end
  end.

Definition parseText (text : string) : Z + list sectionLine :=
  parseLoop (readStrings text) initState.

(** A failure of [os.Open] ends the process with status 1. *)
Definition parseTemplate (f : file) : Z + list sectionLine :=
  match f with
  | FileMissing | FileUnreadable => inl 1
  | FileContent text => parseText text
  end.

End Earlier.

(** ** getProfiles *)

(** The keys of the map [ps] after the first loop. *)
Definition profileSet (sls : list sectionLine) : gset string :=
  foldl (λ ps sl, {[ profile sl ]} ∪ ps) ∅ sls.

(** [slices.Sort] on strings orders them by their bytes. *)
Definition slices_Sort (l : list string) : list string :=
  merge_sort String.le l.

(** The part of [getProfiles] after the loop over the map, whose order of
    iteration is not specified: [psArr] holds the keys in some order. *)
Definition getProfilesFrom (psArr : list string) : list string :=
  defaultProfileName :: slices_Sort psArr.

Definition getProfiles (sls : list sectionLine) : list string :=
  getProfilesFrom (elements (profileSet sls ∖ {[ defaultProfileName ]})).

(** ** parseInput *)

(** The loop of [lastIndex] from index [i] down: it stops at index 0
    without looking at it. *)
Fixpoint lastIndexFrom (s : list string) (v : string) (i : nat) : option Z :=
  match i with
  | O => Some (-1)
  | S i' =>
      match s !! i with
      | Some x => if bool_decide (v = x) then Some (Z.of_nat i)
                  else lastIndexFrom s v i'
      | None => None
      end
  end.

(** [lastIndex]: on an empty slice the first index is -1, which is not 0,
    and [s[-1]] panics. *)
Definition lastIndex (s : list string) (v : string) : option Z :=
  let i := Z.of_nat (length s) - 1 in
  if bool_decide (i < 0) then None else lastIndexFrom s v (Z.to_nat i).

(** Go's [flag] package for the two boolean flags of the program.  An
    error ends the process with status 2. *)
Module flag.

(** [strconv.ParseBool] *)
Definition ParseBool (s : string) : option bool :=
  if bool_decide (s ∈ ["1"; "t"; "T"; "TRUE"; "true"; "True"]) then Some true
  else if bool_decide (s ∈ ["0"; "f"; "F"; "FALSE"; "false"; "False"])
  then Some false
  else None.

(** The name and the value of [name=value], split at the first [=] that
    is not the first character. *)
Fixpoint splitValue (s : string) : string * option string :=
  match s with
  | EmptyString => (EmptyString, None)
  | String c s' =>
      if bool_decide (c = "="%char) then (EmptyString, Some s')
      else let '(n, v) := splitValue s' in (String c n, v)
  end.

Inductive outcome :=
  | Parsed (help h : bool)
  | Exited (code : Z).

Fixpoint Parse (args : list string) (help h : bool) : outcome :=
  match args with
  | [] => Parsed help h
  | s :: rest =>
      match s with
      | String c0 (String c1 s2) =>
          if negb (bool_decide (c0 = "-"%char)) then Parsed help h
          else if bool_decide (s = "--") then Parsed help h
          else
            let name := if bool_decide (c1 = "-"%char) then s2
                        else String c1 s2 in
            match name with
            | EmptyString => Exited 2
            | String n0 name' =>
                if bool_decide (n0 = "-"%char) || bool_decide (n0 = "="%char)
                then Exited 2
                else
                  let '(n, v) := splitValue name' in
                  let name := String n0 n in
                  let set := match v with
                             | Some value => ParseBool value
                             | None => Some true
                             end in
                  match set with
                  | None => Exited 2
                  | Some b =>
                      if bool_decide (name = "help") then Parse rest b h
                      else if bool_decide (name = "h") then Parse rest help b
                      else Exited 2
                  end
            end
      | _ => Parsed help h
      end
  end.

End flag.

Inductive inputError :=
  | errNoArguments
  | errUnknownCommand (command : string)
  | errNoProfiles
  | errDefaultPosition (profiles : list string).

Inductive input :=
  | Selected (profiles : list string)
  | InputError (e : inputError)
  | FlagExit (code : Z)
  | CreateTemplate
  | Panicked.

(** [parseInput] on [os.Args[1:]].  [CreateTemplate] stands for the call of
    [createTemplateFile] followed by the end of the process. *)
Definition parseInput (inputs : list string) : input :=
  match inputs with
  | [] => InputError errNoArguments
  | first :: rest =>
      match flag.Parse inputs false false with
      | flag.Exited c => FlagExit c
      | flag.Parsed h hs =>
          if h || hs then InputError errNoArguments
          else if bool_decide (first = "template") then CreateTemplate
          else if bool_decide (first ≠ "use") then
            InputError (errUnknownCommand first)
          else
            let inputs := rest in
            if bool_decide (length inputs = 0%nat) then InputError errNoProfiles
            else
              let profiles := inputs in
              if bool_decide (0 < Z.of_nat (length profiles)) then
                match lastIndex profiles defaultProfileName with
                | None => Panicked
                | Some i =>
                    if bool_decide (0 < i) then
                      InputError (errDefaultPosition profiles)
                    else Selected profiles
                end
              else Selected profiles
      end
  end.

(** The selections that [parseInput] hands to the merger. *)
Definition valid_selection (selected : list string) : Prop :=
  parseInput ("use" :: selected) = Selected selected.

(** ** The merge as the specification words it

    Steps 1 to 5 of the resolver: drop a leading default, put the default
    profile first, let every profile of the order append its records in
    template order (a record is consumed by the first profile that matches
    it), and keep of every key the entry that was appended last. *)

Definition normalize (selected : list string) : list string :=
  match selected with
  | first :: rest =>
      if bool_decide (first = defaultProfileName) then rest else selected
  | [] => []
  end.

Definition effective_order (selected : list string) : list string :=
  defaultProfileName :: normalize selected.

Fixpoint applied (template : list sectionLine) (order : list string)
  : list kv :=
  match order with
  | [] => []
  | p :: ps =>
      (setting <$> filter (λ sl, profile sl = p) template)
      ++ applied (filter (λ sl, profile sl ≠ p) template) ps
  end.

Fixpoint lastWrites (l : list kv) : list kv :=
  match l with
  | [] => []
  | s :: r =>
      if bool_decide (key s ∈ key <$> r) then lastWrites r
      else s :: lastWrites r
  end.

Definition settingLine (s : kv) : string :=
  key s +:+ "=" +:+ value s +:+ nl.

Fixpoint render (l : list kv) : string :=
  match l with
  | [] => EmptyString
  | s :: r => settingLine s +:+ render r
  end.

Definition resolved (template : list sectionLine) (selected : list string)
  : list kv :=
  lastWrites (applied template (effective_order selected)).

(** A profile sets a key when one of its records has that key. *)
Definition sets (template : list sectionLine) (p k : string) : Prop :=
  ∃ sl, sl ∈ template ∧ profile sl = p ∧ key (setting sl) = k.


(** The effect of one matched record on [settings] and [settingIdx]. *)
Definition record (acc : list kv * gmap string Z) (s : kv)
  : list kv * gmap string Z :=
  (acc.1 ++ [s], <[key s := Z.of_nat (length (acc.1 ++ [s])) - 1]> acc.2).

(** The state of the loop of [parseTemplate] after the reads [rds], when
    each of them lets the loop go on. *)
Fixpoint advance (rds : list (string * readErr)) (st : parseState)
  : option parseState :=
  match rds with
  | [] => Some st
  | rd :: rds' =>
      match parseLine st rd with
      | Continue st' => advance rds' st'
      | _ => None
      end
  end.

(** ** The inputs of the examples *)

(** The template of the specification's scenario: a setting before any
    section, then the section [bat] with two settings. *)
Definition scenario_text : string :=
  "TLP_ENABLE=0" +:+ nl +:+ "[bat]" +:+ nl +:+ "TLP_ENABLE=1" +:+ nl
  +:+ "CPU_SCALING=power" +:+ nl.

Definition scenario : list sectionLine :=
  [SectionLine "default" (KV "TLP_ENABLE" "0");
   SectionLine "bat" (KV "TLP_ENABLE" "1");
   SectionLine "bat" (KV "CPU_SCALING" "power")].

(** Three profiles that set the same key. *)
Definition three_profiles : list sectionLine :=
  [SectionLine "a" (KV "K" "1"); SectionLine "b" (KV "K" "2");
   SectionLine "c" (KV "K" "3")].

(** A well-formed template whose first value ends with a word between
    brackets. *)
Definition bracket_value_text : string :=
  "KEY=[abc]" +:+ nl +:+ "X=1" +:+ nl.

(** The well-formed lines, once stripped: blank, comment, section header
    with a name of word characters, or key=value with a key of word
    characters and a value that is not empty. *)
Definition well_formed_line (line : string) : Prop :=
  match line with
  | EmptyString => True
  | String c _ =>
      c = "#"%char
      ∨ (sectionRegex line = true ∧ validSectionNameRegex (inner line) = true)
      ∨ is_Some (keyValRegex line)
  end.

(** ** The template command and [main] *)

Definition dq : string := String (ascii_of_N 34) EmptyString.

(** The constant [template], the text of a new template file. *)
Definition template : string :=
  "# Profiles are defined as ini/toml sections, e.g. [profile_name]" +:+ nl
  +:+ "# Values before any profile defined belong to default profile, they will be used if not overridden in specific profile."
  +:+ nl
  +:+ "# Lines starting with '#' are comments (won't go into produced file)"
  +:+ nl
  +:+ "#" +:+ nl
  +:+ "# Default profile is usually a baseline for a day-to-day device usage."
  +:+ nl
  +:+ "# Specific profiles exist to override defaults for specific situations"
  +:+ nl
  +:+ "# (like when " +:+ dq +:+ "AC" +:+ dq
  +:+ " is actually a powerbank, and needs to be treated like battery)" +:+ nl
  +:+ "#" +:+ nl
  +:+ "# You can have specific profiles for AC and BAT and combine them in different ways,"
  +:+ nl
  +:+ "# tlp documentation can be fount at https://linrunner.de/tlp/settings/"
  +:+ nl
  +:+ "#" +:+ nl
  +:+ "# Example:" +:+ nl
  +:+ "# [default]" +:+ nl
  +:+ "# TLP_ENABLE=0" +:+ nl
  +:+ "# ... etc" +:+ nl
  +:+ "#" +:+ nl
  +:+ "# [ac_powerbank]" +:+ nl
  +:+ "# TLP_ENABLE=1" +:+ nl
  +:+ "# ... etc" +:+ nl.

(** What the program sees of the file system: the template file, and
    whether a file of that name can be created when there is none. *)
Record filesystem := FileSystem { templateFile : file; canCreate : bool }.

(** [createTemplateFile]: the file is opened with [O_CREATE|O_EXCL], which
    fails when it exists; every failure ends the process with status 1.
    The result of [f.WriteString] is not looked at. *)
Definition createTemplateFile (fs : filesystem) : filesystem * option Z :=
  match templateFile fs with
  | FileMissing =>
      if canCreate fs
      then (FileSystem (FileContent template) (canCreate fs), None)
      else (fs, Some 1)
  | _ => (fs, Some 1)
  end.

(** The end of a run, as seen from outside: the text written to
    [os.Stdout] by a run that returns from [main], or the status of
    [os.Exit] in a run that wrote nothing there, or a panic.  What goes to
    [os.Stderr] is left out. *)
Inductive outcome :=
  | Printed (stdout : string)
  | Exited (code : Z)
  | Panics.

(** [main], on [os.Args[1:]].  The slice that [parseTemplate] returns has a
    backing array of its own. *)
Definition main (args : list string) (fs : filesystem)
  : outcome * filesystem :=
  match parseInput args with
  | InputError _ => (Exited 1, fs)
  | FlagExit c => (Exited c, fs)
  | Panicked => (Panics, fs)
  | CreateTemplate =>
      match createTemplateFile fs with
      | (fs', Some c) => (Exited c, fs')
      | (fs', None) => (Exited 0, fs')
      end
  | Selected selected =>
      match parseTemplate (templateFile fs) with
      | inl _ => (Exited 1, fs)
      | inr lines =>
          match (do template <- alloc lines ;
                 fillConfig template selected) ∅ with
          | Some (config, _) => (Printed (config +:+ nl), fs)
          | None => (Panics, fs)
          end
      end
  end.

(** ** The command line of the earlier variant *)
Module EarlierInput.

Inductive input :=
  | Selected (profiles : list string)
  | Exited (code : Z)
  | CreateTemplate
  | Panicked.

(** [parseInput]: no flags, and every refusal ends the process. *)
Definition parseInput (inputs : list string) : input :=
  match inputs with
  | [] => Exited 1
  | first :: rest =>
      if bool_decide (first = "template") then CreateTemplate
      else if bool_decide (first ≠ "use") then Exited 1
      else
        let inputs := rest in
        if bool_decide (length inputs = 0%nat) then Exited 1
        else
          let profiles := inputs in
          if bool_decide (0 < Z.of_nat (length profiles)) then
            match lastIndex profiles defaultProfileName with
            | None => Panicked
            | Some i =>
                if bool_decide (0 < i) then Exited 1 else Selected profiles
            end
          else Selected profiles
  end.

End EarlierInput.

(** ** Texts made of lines *)

(** The lines [ls], each followed by a newline, then [rest]. *)
Definition joinLines (ls : list string) (rest : string) : string :=
  foldr (λ l r, l +:+ nl +:+ r) rest ls.

(** The template of a parse, when there is one. *)
Definition records {E} (r : E + list sectionLine) : option (list sectionLine) :=
  match r with
  | inr ls => Some ls
  | inl _ => None
  end.

(** A blank line or a comment, once stripped. *)
Definition skipped (line : string) : bool :=
  match line with
  | EmptyString => true
  | String c _ => bool_decide (c = "#"%char)
  end.

(** What the parser lets into a template: a profile that is "default" or
    a name a section header may carry, a key of one or more word
    characters, and a value that is not empty and holds no newline. *)
Definition record_ok (sl : sectionLine) : Prop :=
  validSectionNameRegex (profile sl) = true
  ∧ key (setting sl) ≠ EmptyString ∧ all_word (key (setting sl))
  ∧ value (setting sl) ≠ EmptyString ∧ no_newline (value (setting sl)).

(** A template with four profiles: the records of "default", "bat" and
    "ac" have distinct keys, and "perf" sets a key of "bat" again. *)
Definition four_profiles : list sectionLine :=
  [SectionLine "default" (KV "A" "1"); SectionLine "bat" (KV "B" "2");
   SectionLine "perf" (KV "B" "9"); SectionLine "ac" (KV "C" "3");
   SectionLine "bat" (KV "D" "4")].

(** * Properties *)

(** ** Slices *)
Lemma slice_view_length σ c l : slice_view σ c = Some l → length l = len c.
Proof.
  unfold slice_view. destruct (σ !! base c) as [arr|]; [|done].
  case_bool_decide as H; [|done]. intros [= <-].
  rewrite length_take, length_drop. lia.
Qed.

Lemma slice_index_view σ c l (k : nat) x :
  slice_view σ c = Some l → l !! k = Some x →
  slice_index c (Z.of_nat k) σ = Some (x, σ).
Proof.
  intros Hv Hx. pose proof (slice_view_length _ _ _ Hv) as Hlen.
  pose proof (lookup_lt_Some _ _ _ Hx) as Hk.
  unfold slice_view in Hv. unfold slice_index.
  destruct (σ !! base c) as [arr|]; [|done].
  case_bool_decide as H; [|done]. injection Hv as <-.
  rewrite bool_decide_true by lia.
  rewrite Nat2Z.id.
  rewrite lookup_take_lt, lookup_drop in Hx by lia. by rewrite Hx.
Qed.

(** [append(c[:k], c[k+1:]...)] removes element [k] in place. *)
Lemma delete_in_place σ c l (k : nat) :
  slice_view σ c = Some l → (k < length l)%nat →
  ∃ arr',
    (∀ A (K : slice → M A),
       (do dst <- slice_to c (Z.of_nat k) ;
        do src <- slice_from c (Z.of_nat k + 1) ;
        do cache' <- slice_append dst src ;
        K cache') σ
       = K {| base := base c; off := off c; len := (len c - 1)%nat;
              cap := cap c |} (<[base c := arr']> σ))
    ∧ slice_view (<[base c := arr']> σ)
        {| base := base c; off := off c; len := (len c - 1)%nat;
           cap := cap c |} = Some (delete k l).
Proof.
  intros Hv Hk. pose proof (slice_view_length _ _ _ Hv) as Hlen.
  unfold slice_view in Hv.
  destruct (σ !! base c) as [arr|] eqn:Harr; [|done].
  case_bool_decide as Hb; [|done]. injection Hv as <-. destruct Hb as [Hb1 Hb2].
  eexists. split.
  - intros A K. unfold bind, slice_to, slice_from.
    rewrite !bool_decide_true by lia. unfold ret.
    unfold slice_append, slice_view; simpl. rewrite Harr.
    rewrite bool_decide_true by lia.
    rewrite length_take, length_drop, Nat2Z.id.
    replace (Z.to_nat (Z.of_nat k + 1)) with (S k) by lia.
    rewrite bool_decide_true by lia.
    replace (k + (len c - S k) `min` (length arr - (off c + S k)))%nat
      with (len c - 1)%nat by lia.
    reflexivity.
  - unfold slice_view; simpl. rewrite lookup_insert_eq.
    rewrite !length_app, !length_take, !length_drop.
    rewrite bool_decide_true by lia. f_equal.
    rewrite delete_take_drop.
    rewrite drop_app_le by (rewrite length_take; lia).
    rewrite (assoc_L (++)), take_app_length'
      by (rewrite length_app, length_drop, !length_take, length_drop; lia).
    rewrite take_take, !skipn_firstn_comm, drop_drop.
    f_equal; f_equal; lia.
Qed.


Lemma scanCache_spec fuel p : ∀ σ c l (k : nat) sts idx,
  slice_view σ c = Some l → (k ≤ length l)%nat → (length l - k ≤ fuel)%nat →
  let l' := take k l ++ filter (λ sl, profile sl ≠ p) (drop k l) in
  let c' := {| base := base c; off := off c; len := length l'; cap := cap c |} in
  let acc := foldl record (sts, idx)
               (setting <$> filter (λ sl, profile sl = p) (drop k l)) in
  ∃ arr',
    scanCache fuel p (Z.of_nat k) (MergeState c sts idx) σ
    = Some (MergeState c' acc.1 acc.2, <[base c := arr']> σ)
    ∧ slice_view (<[base c := arr']> σ) c' = Some l'.
Proof.
  induction fuel as [|fuel IH]; intros σ c l k sts idx Hv Hk Hf;
    pose proof (slice_view_length _ _ _ Hv) as Hlen.
  - assert (k = length l) as -> by lia. simpl.
    rewrite bool_decide_false by lia.
    rewrite drop_all, take_ge, filter_nil by lia. simpl.
    rewrite (right_id_L [] (++)).
    unfold slice_view in Hv. destruct (σ !! base c) as [arr|] eqn:Harr; [|done].
    exists arr. rewrite insert_id by done. rewrite Hlen. destruct c; simpl in *.
    split; [done|]. unfold slice_view. simpl. by rewrite Harr.
  - destruct (decide (k = length l)) as [->|Hne].
    { simpl. rewrite bool_decide_false by (simpl; lia).
      rewrite drop_all, take_ge, filter_nil by lia. simpl.
      rewrite (right_id_L [] (++)).
      unfold slice_view in Hv. destruct (σ !! base c) as [arr|] eqn:Harr; [|done].
      exists arr. rewrite insert_id by done. rewrite Hlen. destruct c; simpl in *.
      split; [done|]. unfold slice_view. simpl. by rewrite Harr. }
    destruct (lookup_lt_is_Some_2 l k) as [x Hx]; [lia|].
    rewrite (drop_S _ _ _ Hx).
    cbn [scanCache]. rewrite bool_decide_true by (simpl; lia).
    unfold bind at 1. simpl templateCache.
    rewrite (slice_index_view _ _ _ _ _ Hv Hx).
    destruct (decide (profile x = p)) as [Hp|Hp].
    + rewrite bool_decide_false by naive_solver.
      destruct (delete_in_place _ _ _ k Hv) as (arr1 & Hdel & Hv1); [lia|].
      replace (Z.of_nat k - 1 + 1) with (Z.of_nat k) by lia.
      rewrite Hdel.
      destruct (IH _ _ _ k (sts ++ [setting x])
                  (<[key (setting x) :=
                       Z.of_nat (length (sts ++ [setting x])) - 1]> idx) Hv1)
        as (arr2 & Hrun & Hv2).
      { rewrite length_delete by eauto. lia. }
      { rewrite length_delete by eauto. lia. }
      simpl in Hrun, Hv2. rewrite insert_insert_eq in Hrun, Hv2.
      rewrite delete_take_drop in Hrun, Hv2.
      rewrite take_app_le, take_take, drop_app_length' in Hrun, Hv2
        by (rewrite ?length_take; lia).
      replace (k `min` k)%nat with k in Hrun, Hv2 by lia.
      exists arr2. cbn [settings settingIdx templateCache]. rewrite Hrun.
      rewrite filter_cons_False by naive_solver.
      rewrite filter_cons_True by done. simpl. split; [|done].
      done.
    + rewrite bool_decide_true by done.
      destruct (IH _ _ _ (S k) sts idx Hv) as (arr2 & Hrun & Hv2); [lia..|].
      simpl in Hrun, Hv2.
      replace (Z.of_nat k + 1) with (Z.of_nat (S k)) by lia.
      exists arr2. rewrite Hrun.
      rewrite filter_cons_True by done.
      rewrite filter_cons_False by naive_solver.
      rewrite (take_S_r _ _ _ Hx), <- (assoc_L (++)) in Hv2. simpl in Hv2.
      rewrite (take_S_r _ _ _ Hx), <- (assoc_L (++)). simpl.
      done.
Qed.

Lemma eachProfile_spec ps : ∀ σ c l sts idx,
  slice_view σ c = Some l →
  let acc := foldl record (sts, idx) (applied l ps) in
  ∃ arr' c',
    eachProfile ps (MergeState c sts idx) σ
    = Some (MergeState c' acc.1 acc.2, <[base c := arr']> σ).
Proof.
  induction ps as [|p ps IH]; intros σ c l sts idx Hv; simpl.
  - unfold slice_view in Hv. destruct (σ !! base c) as [arr|] eqn:Harr; [|done].
    exists arr, c. by rewrite insert_id.
  - destruct (scanCache_spec (len c) p σ c l 0 sts idx Hv) as (arr1 & Hrun & Hv1);
      [lia | rewrite (slice_view_length _ _ _ Hv); lia |].
    change (Z.of_nat 0) with 0 in Hrun. rewrite take_0, drop_0 in Hrun, Hv1.
    simpl in Hrun, Hv1. unfold bind. simpl. rewrite Hrun.
    destruct (IH _ _ _ (foldl record (sts, idx)
                (setting <$> filter (λ sl, profile sl = p) l)).1
               (foldl record (sts, idx)
                (setting <$> filter (λ sl, profile sl = p) l)).2 Hv1)
      as (arr2 & c2 & Hrun2).
    simpl in Hrun2. rewrite insert_insert_eq in Hrun2.
    exists arr2, c2. rewrite Hrun2. rewrite foldl_app.
    by destruct (foldl record (sts, idx) (setting <$> filter (λ sl, profile sl = p) l)).
Qed.

Lemma append_cons c s t : String c s +:+ t = String c (s +:+ t).
Proof. reflexivity. Qed.

Lemma append_nil_l s : EmptyString +:+ s = s.
Proof. reflexivity. Qed.

Lemma append_nil_r s : s +:+ EmptyString = s.
Proof. induction s as [|c s IH]; [done|]. by rewrite append_cons, IH. Qed.

Lemma append_assoc s t u : (s +:+ t) +:+ u = s +:+ (t +:+ u).
Proof. induction s as [|c s IH]; [done|]. by rewrite !append_cons, IH. Qed.

Lemma record_all es : ∀ sts idx,
  let acc := foldl record (sts, idx) es in
  acc.1 = sts ++ es
  ∧ (∀ k, k ∉ key <$> es → acc.2 !! k = idx !! k)
  ∧ (∀ a e b, es = a ++ e :: b → key e ∉ key <$> b →
       acc.2 !! key e = Some (Z.of_nat (length sts + length a))).
Proof.
  induction es as [|e0 es IH]; intros sts idx; simpl.
  - split; [by rewrite (right_id_L [] (++))|]. split; [done|].
    intros [|??] ???; done.
  - destruct (IH (sts ++ [e0])
               (<[key e0 := Z.of_nat (length (sts ++ [e0])) - 1]> idx))
      as (H1 & H2 & H3).
    change (record (sts, idx) e0)
      with (sts ++ [e0], <[key e0 := Z.of_nat (length (sts ++ [e0])) - 1]> idx).
    split; [|split].
    + by rewrite H1, <- (assoc_L (++)).
    + intros k Hk. rewrite not_elem_of_cons in Hk. destruct Hk as [Hk1 Hk2].
      rewrite H2 by done. by rewrite lookup_insert_ne.
    + intros [|a0 a] e b Heq Hb; injection Heq as -> ->.
      * rewrite H2 by done. rewrite lookup_insert_eq. f_equal.
        rewrite length_app. simpl. lia.
      * rewrite (H3 a e b) by done. f_equal. rewrite length_app. simpl. lia.
Qed.

Lemma last_occurrence (k : string) (b : list kv) :
  k ∈ key <$> b →
  ∃ b1 e b2, b = b1 ++ e :: b2 ∧ key e = k ∧ k ∉ key <$> b2.
Proof.
  induction b as [|x b IH]; simpl; [by intros ?%elem_of_nil|].
  intros Hin. destruct (decide (k ∈ key <$> b)) as [Hb|Hb].
  - destruct (IH Hb) as (b1 & e & b2 & -> & He & Hb2).
    by exists (x :: b1), e, b2.
  - apply elem_of_cons in Hin as [->|?]; [|done].
    by exists [], x, b.
Qed.

Lemma emitSettings_spec (m : gmap string Z) : ∀ post (pre : list kv) config,
  (∀ a e b, post = a ++ e :: b →
     default 0 (m !! key e) = Z.of_nat (length pre + length a)
     ↔ key e ∉ key <$> b) →
  emitSettings m (Z.of_nat (length pre)) post config
  = config +:+ render (lastWrites post).
Proof.
  induction post as [|e post IH]; intros pre config Hm; simpl.
  - by rewrite append_nil_r.
  - replace (Z.of_nat (length pre) + 1) with (Z.of_nat (length (pre ++ [e])))
      by (rewrite length_app; simpl; lia).
    rewrite IH.
    2:{ intros a e' b -> . rewrite <- (Hm (e :: a) e' b eq_refl).
        rewrite length_app. simpl.
        replace (length pre + S (length a))%nat
          with (length pre + 1 + length a)%nat by lia. done. }
    pose proof (Hm [] e post eq_refl) as H0. simpl in H0.
    rewrite Nat.add_0_r in H0.
    case_bool_decide as Hd; case_bool_decide as Hk.
    + by apply H0 in Hd.
    + simpl. unfold writeSetting, settingLine.
      by rewrite !append_assoc.
    + done.
    + by apply H0 in Hk.
Qed.

Lemma emit_recorded es config :
  emitSettings (foldl record ([], ∅) es).2 0 es config
  = config +:+ render (lastWrites es).
Proof.
  destruct (record_all es [] ∅) as (_ & H2 & H3).
  apply (emitSettings_spec _ es []). intros a e b -> . simpl. split.
  - intros Hd Hin.
    destruct (last_occurrence _ _ Hin) as (b1 & e' & b2 & -> & He & Hb2).
    rewrite <- He in Hd.
    rewrite (H3 (a ++ e :: b1) e' b2) in Hd;
      [| by rewrite <- (assoc_L (++)) | by rewrite He].
    simpl in Hd. rewrite length_app in Hd. simpl in Hd. lia.
  - intros Hb. by rewrite (H3 a e b).
Qed.

(** The text [fillConfig] writes is the specification's merge of the
    elements of the template slice, and the only change to the store is
    the new array of the clone. *)
Lemma fillConfig_spec σ template l selected :
  slice_view σ template = Some l → selected ≠ [] →
  ∃ arr',
    fillConfig template selected σ
    = Some (header +:+ render (resolved l selected),
            <[fresh (dom σ) := arr']> σ).
Proof.
  intros Hv Hsel. destruct selected as [|first rest]; [done|].
  unfold fillConfig, bind, slices_Clone. rewrite Hv. unfold alloc.
  set (c := {| base := fresh (dom σ); off := 0; len := length l;
               cap := length l |}).
  assert (slice_view (<[fresh (dom σ) := l]> σ) c = Some l) as Hc.
  { unfold slice_view. simpl. rewrite lookup_insert_eq.
    rewrite bool_decide_true by lia. by rewrite drop_0, firstn_all. }
  destruct (eachProfile_spec
              (defaultProfileName ::
                 (if bool_decide (first = defaultProfileName)
                  then drop 1 (first :: rest) else first :: rest))
              _ _ _ [] ∅ Hc) as (arr' & c' & Hrun).
  rewrite Hrun. simpl base. rewrite insert_insert_eq. exists arr'.
  unfold ret. cbn [settings settingIdx].
  destruct (record_all
    (applied l (defaultProfileName ::
       (if bool_decide (first = defaultProfileName)
        then drop 1 (first :: rest) else first :: rest))) [] ∅) as (H1 & _).
  cbv zeta in H1. rewrite app_nil_l in H1. rewrite H1, emit_recorded.
  unfold resolved, effective_order, normalize. simpl drop. done.
Qed.

(** ** The merge of the specification *)

Lemma applied_cons l p ps :
  applied l (p :: ps)
  = (setting <$> filter (λ sl, profile sl = p) l)
    ++ applied (filter (λ sl, profile sl ≠ p) l) ps.
Proof. reflexivity. Qed.

Lemma applied_absent l p ps :
  filter (λ sl, profile sl = p) l = [] → applied l (p :: ps) = applied l ps.
Proof.
  intros Hnone. simpl. rewrite Hnone. simpl. f_equal.
  induction l as [|x l IH]; [done|].
  destruct (decide (profile x = p)) as [Hp|Hp].
  - by rewrite filter_cons_True in Hnone.
  - rewrite filter_cons_False in Hnone by done.
    rewrite filter_cons_True by done. f_equal. auto.
Qed.

Lemma filter_consumed (l : list sectionLine) p :
  filter (λ sl, profile sl = p) (filter (λ sl, profile sl ≠ p) l) = [].
Proof.
  induction l as [|x l IH]; [done|].
  destruct (decide (profile x = p)) as [Hp|Hp].
  - rewrite (filter_cons_False (λ sl, profile sl ≠ p)) by naive_solver. done.
  - rewrite (filter_cons_True (λ sl, profile sl ≠ p)) by done.
    by rewrite filter_cons_False.
Qed.

(** A profile named twice in a row is applied once: its records are gone
    when its second turn comes. *)
Lemma applied_twice l1 : ∀ l p l2,
  applied l (l1 ++ p :: p :: l2) = applied l (l1 ++ p :: l2).
Proof.
  induction l1 as [|q l1 IH]; intros l p l2.
  - rewrite !app_nil_l, (applied_cons l p (p :: l2)), (applied_cons l p l2).
    by rewrite applied_absent by apply filter_consumed.
  - simpl. by rewrite IH.
Qed.


Lemma applied_keys order : ∀ l k,
  k ∈ key <$> applied l order →
  ∃ sl, sl ∈ l ∧ profile sl ∈ order ∧ key (setting sl) = k.
Proof.
  induction order as [|p ps IH]; intros l k; simpl.
  - by intros ?%elem_of_nil.
  - rewrite fmap_app, elem_of_app. intros [Hin|Hin].
    + apply list_elem_of_fmap in Hin as (s & -> & Hs).
      apply list_elem_of_fmap in Hs as (sl & -> & Hsl).
      apply list_elem_of_filter in Hsl as [Hp Hsl].
      exists sl. split; [done|]. split; [|done]. rewrite Hp. left.
    + destruct (IH _ _ Hin) as (sl & Hsl & Hp & Hk).
      apply list_elem_of_filter in Hsl as [_ Hsl].
      exists sl. split; [done|]. split; [by right|done].
Qed.

Lemma applied_sets order : ∀ l p k,
  p ∈ order → sets l p k → k ∈ key <$> applied l order.
Proof.
  induction order as [|q ps IH]; intros l p k Hp (sl & Hsl & Hprof & Hk).
  - by apply elem_of_nil in Hp.
  - simpl. rewrite fmap_app, elem_of_app.
    destruct (decide (p = q)) as [->|Hne].
    + left. rewrite <- Hk. apply list_elem_of_fmap_2, list_elem_of_fmap_2.
      by apply list_elem_of_filter.
    + right. apply (IH _ p).
      * apply elem_of_cons in Hp as [?|?]; done.
      * exists sl. split; [|done]. apply list_elem_of_filter. split; [|done].
        by rewrite Hprof.
Qed.

Lemma lastWrites_subset l x : x ∈ lastWrites l → x ∈ l.
Proof.
  induction l as [|y l IH]; simpl; [done|].
  case_bool_decide; rewrite ?elem_of_cons; tauto.
Qed.


Lemma output_spec σ template l selected :
  slice_view σ template = Some l → selected ≠ [] →
  output σ template selected = Some (header +:+ render (resolved l selected)).
Proof.
  intros Hv Hsel. unfold output.
  destruct (fillConfig_spec _ _ _ _ Hv Hsel) as (arr' & ->). done.
Qed.

(** ** parseInput *)

Lemma lastIndexFrom_spec (s : list string) v (i : nat) :
  (i < length s)%nat →
  (lastIndexFrom s v i = Some (-1)
   ∧ ∀ j, (1 ≤ j ≤ i)%nat → s !! j ≠ Some v)
  ∨ (∃ j, (1 ≤ j ≤ i)%nat ∧ s !! j = Some v
          ∧ lastIndexFrom s v i = Some (Z.of_nat j)).
Proof.
  induction i as [|i IH]; intros Hi.
  - left. split; [done|]. intros j ?. lia.
  - simpl. destruct (lookup_lt_is_Some_2 s (S i) Hi) as [x Hx]. rewrite Hx.
    case_bool_decide as Hv.
    + right. exists (S i). subst x. repeat split; [lia|lia|done].
    + destruct IH as [[Hr Hnone]|(j & Hj & Hsj & Hr)]; [lia| |].
      * left. split; [done|]. intros j Hj.
        destruct (decide (j = S i)) as [->|?]; [|apply Hnone; lia].
        rewrite Hx. congruence.
      * right. exists j. repeat split; [lia|lia|done|done].
Qed.

Lemma lastIndex_spec (s : list string) v :
  s ≠ [] →
  (lastIndex s v = Some (-1) ∧ ∀ j, (1 ≤ j)%nat → s !! j ≠ Some v)
  ∨ (∃ j, (1 ≤ j)%nat ∧ s !! j = Some v ∧ lastIndex s v = Some (Z.of_nat j)).
Proof.
  intros Hs. unfold lastIndex.
  assert (0 < length s)%nat by (destruct s; simpl; [done|lia]).
  rewrite bool_decide_false by lia.
  destruct (lastIndexFrom_spec s v (Z.to_nat (Z.of_nat (length s) - 1)))
    as [[Hr Hnone]|(j & Hj & Hsj & Hr)]; [lia| |].
  - left. split; [done|]. intros j Hj.
    destruct (decide (j < length s)%nat); [apply Hnone; lia|].
    rewrite lookup_ge_None_2 by lia. done.
  - right. exists j. repeat split; [lia|done|done].
Qed.

(** The words after [use], when there is at least one. *)
Lemma parseInput_use (sel : list string) :
  sel ≠ [] →
  parseInput ("use" :: sel) =
    match lastIndex sel defaultProfileName with
    | Some i => if bool_decide (0 < i)
                then InputError (errDefaultPosition sel) else Selected sel
    | None => Panicked
    end.
Proof.
  intros Hs. unfold parseInput.
  change (flag.Parse ("use" :: sel) false false) with (flag.Parsed false false).
  cbn [orb]. rewrite bool_decide_false by done.
  rewrite (bool_decide_false ("use" ≠ "use")) by naive_solver.
  destruct sel as [|x sel]; [done|].
  rewrite bool_decide_false by done.
  rewrite bool_decide_true by (simpl; lia). done.
Qed.

Lemma valid_selection_iff (sel : list string) :
  valid_selection sel
  ↔ sel ≠ [] ∧ ∀ i, sel !! i = Some defaultProfileName → i = 0%nat.
Proof.
  unfold valid_selection. split.
  - intros Hv. assert (sel ≠ []) as Hne.
    { intros ->. vm_compute in Hv. discriminate. }
    split; [done|]. rewrite parseInput_use in Hv by done.
    destruct (lastIndex_spec sel defaultProfileName Hne)
      as [[Hr Hnone]|(j & Hj & Hsj & Hr)]; rewrite Hr in Hv.
    + intros i Hi. destruct i; [done|]. by destruct (Hnone (S i)); [lia|].
    + rewrite bool_decide_true in Hv by lia. discriminate.
  - intros [Hne Hd]. rewrite parseInput_use by done.
    destruct (lastIndex_spec sel defaultProfileName Hne)
      as [[Hr Hnone]|(j & Hj & Hsj & Hr)]; rewrite Hr.
    + done.
    + apply Hd in Hsj. lia.
Qed.

(** C4.  A selection in which "default" stands at any position but the
    first is rejected with the error on the placement of the default
    profile, whether or not it also stands first; a selection that is not
    empty and has "default" at most in the first position is accepted as it
    is. *)
Theorem default_position (sel : list string) :
  ((∃ i, (1 ≤ i)%nat ∧ sel !! i = Some defaultProfileName) →
   parseInput ("use" :: sel) = InputError (errDefaultPosition sel))
  ∧ (sel ≠ [] →
     (∀ i, sel !! i = Some defaultProfileName → i = 0%nat) →
     parseInput ("use" :: sel) = Selected sel).
Proof.
  split.
  - intros (i & Hi & Hsi).
    assert (sel ≠ []) as Hne by (intros ->; done).
    rewrite parseInput_use by done.
    destruct (lastIndex_spec sel defaultProfileName Hne)
      as [[Hr Hnone]|(j & Hj & Hsj & Hr)]; rewrite Hr.
    + by destruct (Hnone i).
    + by rewrite bool_decide_true by lia.
  - intros Hne Hd. by apply valid_selection_iff.
Qed.

Lemma default_position_witness :
  parseInput ["use"; "bat"; "default"]
    = InputError (errDefaultPosition ["bat"; "default"])
  ∧ parseInput ["use"; "default"; "default"]
    = InputError (errDefaultPosition ["default"; "default"])
  ∧ parseInput ["use"; "default"; "bat"] = Selected ["default"; "bat"]
  ∧ parseInput ["use"; "default"] = Selected ["default"].
Proof.
  split; [|split; [|split]].
  - apply (default_position ["bat"; "default"]). exists 1%nat. split; [lia|reflexivity].
  - apply (default_position ["default"; "default"]). exists 1%nat.
    split; [lia|reflexivity].
  - apply (default_position ["default"; "bat"]); [discriminate|].
    intros [|[|i]] H; [reflexivity|discriminate H|discriminate H].
  - apply (default_position ["default"]); [discriminate|].
    intros [|i] H; [reflexivity|discriminate H].
Defined.

(** ** The merger *)

(** C10.  [fillConfig] returns for every template slice and every
    selection that is not empty, and leaves the template as it was: the
    slice has the same elements in the same order, and every backing array
    of the store before the call is unchanged after it.  Only the array
    allocated for the clone is written. *)
Theorem fillConfig_preserves_template σ template l selected :
  slice_view σ template = Some l → selected ≠ [] →
  ∃ out σ',
    fillConfig template selected σ = Some (out, σ')
    ∧ slice_view σ' template = Some l
    ∧ (∀ b, b ∈ dom σ → σ' !! b = σ !! b).
Proof.
  intros Hv Hsel.
  destruct (fillConfig_spec _ _ _ _ Hv Hsel) as (arr' & Hrun).
  eexists _, _. split; [exact Hrun|].
  assert (∀ b, b ∈ dom σ → <[fresh (dom σ) := arr']> σ !! b = σ !! b) as Hframe.
  { intros b Hb. apply lookup_insert_ne. intros <-.
    by apply (is_fresh (dom σ)). }
  split; [|done].
  unfold slice_view in *.
  destruct (σ !! base template) as [arr|] eqn:Harr; [|done].
  rewrite Hframe, Harr; [done|]. apply elem_of_dom. by rewrite Harr.
Qed.

Lemma fillConfig_preserves_template_witness :
  let l := [SectionLine "default" (KV "A" "1"); SectionLine "bat" (KV "A" "2")] in
  ∃ out σ',
    fillConfig (whole l) ["bat"] (store_of l) = Some (out, σ')
    ∧ slice_view σ' (whole l) = Some l
    ∧ (∀ b, b ∈ dom (store_of l) → σ' !! b = store_of l !! b).
Proof.
  intros l.
  apply (fillConfig_preserves_template (store_of l) (whole l) l ["bat"]);
    [reflexivity|discriminate].
Defined.

(** The deletion the merger performs on its clone is a write to the
    backing array: done on the template slice itself it would change the
    template. *)
Example delete_aliases :
  let a := SectionLine "default" (KV "A" "1") in
  let b := SectionLine "bat" (KV "A" "2") in
  (do dst <- slice_to (whole [a; b]) 0 ;
   do src <- slice_from (whole [a; b]) 1 ;
   slice_append dst src) (store_of [a; b])
  = Some ({| base := 0; off := 0; len := 1; cap := 2 |}, store_of [b; b]).
Proof. vm_compute. reflexivity. Qed.

(** C2.  The profiles are applied in the order "default", then the
    selection without a leading "default": the text written is the merge
    of the specification over that order.  A selection that starts with
    "default" therefore gives the same text as the selection without it,
    when something is left. *)
Theorem default_applied_first σ template l selected :
  slice_view σ template = Some l → selected ≠ [] →
  output σ template selected
  = Some (header +:+
          render (lastWrites
                    (applied l (defaultProfileName :: normalize selected))))
  ∧ (∀ rest, selected = defaultProfileName :: rest → rest ≠ [] →
       output σ template selected = output σ template rest).
Proof.
  intros Hv Hsel. split; [by apply output_spec|].
  intros rest -> Hrest. rewrite !(output_spec _ _ l) by done.
  unfold resolved, effective_order.
  apply (f_equal (λ x, Some (header +:+ render (lastWrites x)))).
  destruct rest as [|r rest]; [done|]. unfold normalize.
  rewrite bool_decide_true by done.
  case_bool_decide as Hr; [|done]. subst r.
  apply (applied_twice [] l defaultProfileName rest).
Qed.

Lemma default_applied_first_witness :
  let l := [SectionLine "default" (KV "A" "1"); SectionLine "bat" (KV "A" "2")] in
  output (store_of l) (whole l) ["default"; "bat"]
  = Some (header +:+
          render (lastWrites
                    (applied l (defaultProfileName
                                  :: normalize ["default"; "bat"]))))
  ∧ (∀ rest, ["default"; "bat"] = defaultProfileName :: rest → rest ≠ [] →
       output (store_of l) (whole l) ["default"; "bat"]
       = output (store_of l) (whole l) rest).
Proof.
  intros l.
  apply (default_applied_first (store_of l) (whole l) l ["default"; "bat"]);
    [reflexivity|discriminate].
Defined.

(** C3.  A profile selected twice in a row counts once: the text written
    for a selection with the repetition is the text written for the
    selection with a single occurrence, and both are written. *)
Theorem repeated_profile σ template l (l1 : list string) p l2 :
  slice_view σ template = Some l →
  output σ template (l1 ++ p :: p :: l2) = output σ template (l1 ++ p :: l2)
  ∧ is_Some (output σ template (l1 ++ p :: l2)).
Proof.
  intros Hv.
  rewrite !(output_spec _ _ l) by (done || by destruct l1).
  split; [|done]. unfold resolved, effective_order.
  apply (f_equal (λ x, Some (header +:+ render (lastWrites x)))).
  destruct l1 as [|q l1]; unfold normalize; rewrite ?app_nil_l, <- ?app_comm_cons.
  - case_bool_decide as Hp.
    + subst p. apply (applied_twice [] l defaultProfileName l2).
    + apply (applied_twice [defaultProfileName] l p l2).
  - case_bool_decide as Hq.
    + apply (applied_twice (defaultProfileName :: l1) l p l2).
    + apply (applied_twice (defaultProfileName :: q :: l1) l p l2).
Qed.

Lemma repeated_profile_witness :
  let l := [SectionLine "default" (KV "A" "1"); SectionLine "bat" (KV "A" "2")] in
  output (store_of l) (whole l) (["default"] ++ "bat" :: "bat" :: [])
  = output (store_of l) (whole l) (["default"] ++ "bat" :: [])
  ∧ is_Some (output (store_of l) (whole l) (["default"] ++ "bat" :: [])).
Proof.
  intros l.
  apply (repeated_profile (store_of l) (whole l) l ["default"] "bat" []).
  reflexivity.
Defined.






(** ** Strings, white space and lines *)

Lemma rev_app_append s : ∀ t u,
  String.rev_app (s +:+ t) u = String.rev_app t (String.rev_app s u).
Proof.
  induction s as [|c s IH]; intros t u; [done|].
  rewrite append_cons. simpl. apply IH.
Qed.

Lemma rev_snoc s c : String.rev (s +:+ String c EmptyString) = String c (String.rev s).
Proof. unfold String.rev. by rewrite rev_app_append. Qed.

Lemma space2_newline c : space2 c newline = false.
Proof. unfold space2. apply andb_false_r. Qed.

Lemma space3_newline c1 c2 : space3 c1 c2 newline = false.
Proof.
  unfold space3. change (byte newline) with 10. simpl.
  by rewrite !andb_false_r.
Qed.

(** Induction along the recursion of [trimLeft]. *)
Lemma string_length_ind (P : string → Prop) :
  (∀ s, (∀ t, (String.length t < String.length s)%nat → P t) → P s) →
  ∀ s, P s.
Proof.
  intros Hstep s. remember (String.length s) as n eqn:Hn.
  revert s Hn. induction (lt_wf n) as [n _ IH]. intros s ->.
  apply Hstep. intros t Ht. by apply (IH (String.length t)).
Qed.

Lemma trimLeft_newline s :
  trimLeft (s +:+ nl)
  = match trimLeft s with
    | EmptyString => EmptyString
    | String _ _ => trimLeft s +:+ nl
    end.
Proof.
  induction s as [s IH] using string_length_ind.
  destruct s as [|c1 [|c2 [|c3 s3]]];
    rewrite ?append_cons, ?append_nil_l; unfold nl at 1.
  - done.
  - simpl. destruct (space1 c1) eqn:H1; [done|].
    by rewrite space2_newline.
  - simpl. destruct (space1 c1) eqn:H1.
    { apply (IH (String c2 EmptyString)). simpl. lia. }
    destruct (space2 c1 c2) eqn:H2; [done|].
    by rewrite space3_newline.
  - fold nl. simpl trimLeft at 1 2 3.
    destruct (space1 c1) eqn:H1.
    { apply (IH (String c2 (String c3 s3))). simpl. lia. }
    destruct (space2 c1 c2) eqn:H2.
    { apply (IH (String c3 s3)). simpl. lia. }
    destruct (space3 c1 c2 c3) eqn:H3.
    { apply (IH s3). simpl. lia. }
    done.
Qed.

Lemma trimRight_newline s : trimRight (s +:+ nl) = trimRight s.
Proof. unfold trimRight, nl. by rewrite rev_snoc. Qed.

Lemma TrimSpace_newline s : TrimSpace (s +:+ nl) = TrimSpace s.
Proof.
  unfold TrimSpace. rewrite trimLeft_newline.
  destruct (trimLeft s); [done|]. apply trimRight_newline.
Qed.

Lemma no_newline_append s t :
  no_newline (s +:+ t) = no_newline s && no_newline t.
Proof.
  induction s as [|c s IH]; [done|].
  rewrite append_cons. simpl. by rewrite IH, andb_assoc.
Qed.

Lemma no_newline_rev_app s : ∀ u,
  no_newline (String.rev_app s u) = no_newline s && no_newline u.
Proof.
  induction s as [|c s IH]; intros u; [done|]. simpl. rewrite IH. simpl.
  destruct (no_newline s), (no_newline u), (bool_decide (c = newline)); done.
Qed.

Lemma no_newline_rev s : no_newline (String.rev s) = no_newline s.
Proof. unfold String.rev. rewrite no_newline_rev_app. simpl. apply andb_true_r. Qed.

Lemma no_newline_trimLeft s : no_newline s → no_newline (trimLeft s).
Proof.
  induction s as [s IH] using string_length_ind.
  destruct s as [|c1 s1]; [done|]. intros Hs. simpl trimLeft.
  simpl in Hs. apply andb_prop_elim in Hs as [Hc1 Hs1].
  destruct (space1 c1); [apply IH; [simpl; lia|done]|].
  destruct s1 as [|c2 s2]; [by simpl; apply andb_prop_intro|].
  simpl in Hs1. apply andb_prop_elim in Hs1 as [Hc2 Hs2].
  destruct (space2 c1 c2); [apply IH; [simpl; lia|done]|].
  destruct s2 as [|c3 s3]; [by simpl; repeat (apply andb_prop_intro; split)|].
  simpl in Hs2. apply andb_prop_elim in Hs2 as [Hc3 Hs3].
  destruct (space3 c1 c2 c3); [apply IH; [simpl; lia|done]|].
  simpl. by repeat (apply andb_prop_intro; split).
Qed.

Lemma no_newline_trimLeftRev s : no_newline s → no_newline (trimLeftRev s).
Proof.
  induction s as [s IH] using string_length_ind.
  destruct s as [|c1 s1]; [done|]. intros Hs. simpl trimLeftRev.
  simpl in Hs. apply andb_prop_elim in Hs as [Hc1 Hs1].
  destruct (space1 c1); [apply IH; [simpl; lia|done]|].
  destruct s1 as [|c2 s2]; [by simpl; apply andb_prop_intro|].
  simpl in Hs1. apply andb_prop_elim in Hs1 as [Hc2 Hs2].
  destruct (space2 c2 c1); [apply IH; [simpl; lia|done]|].
  destruct s2 as [|c3 s3]; [by simpl; repeat (apply andb_prop_intro; split)|].
  simpl in Hs2. apply andb_prop_elim in Hs2 as [Hc3 Hs3].
  destruct (space3 c3 c2 c1); [apply IH; [simpl; lia|done]|].
  simpl. by repeat (apply andb_prop_intro; split).
Qed.

Lemma no_newline_TrimSpace s : no_newline s → no_newline (TrimSpace s).
Proof.
  intros Hs. unfold TrimSpace, trimRight. rewrite no_newline_rev.
  apply no_newline_trimLeftRev. rewrite no_newline_rev.
  by apply no_newline_trimLeft.
Qed.

(** What [ReadString] returns on a file: lines that end with their only
    newline and come without error, then a last piece without newline
    that comes with [io.EOF]. *)
Lemma readStrings_shape text :
  ∃ rds t,
    readStrings text = rds ++ [(t, ErrEOF)] ∧ no_newline t
    ∧ Forall (λ rd, ∃ body, rd = (body +:+ nl, ErrNil) ∧ no_newline body) rds.
Proof.
  induction text as [|c text (rds & t & Hr & Ht & Hall)].
  - by exists [], EmptyString.
  - simpl. case_bool_decide as Hc.
    + subst c. exists ((nl, ErrNil) :: rds), t. rewrite Hr.
      split; [done|]. split; [done|]. constructor; [|done].
      by exists EmptyString.
    + rewrite Hr. destruct rds as [|[l e] rds]; simpl.
      * exists [], (String c t). split; [done|]. split; [|done].
        simpl. rewrite bool_decide_false by done. done.
      * exists ((String c l, e) :: rds), t. split; [done|]. split; [done|].
        apply Forall_cons in Hall as [(body & Heq & Hbody) Hall'].
        injection Heq as -> ->.
        constructor; [|done]. exists (String c body). split; [done|].
        simpl. rewrite bool_decide_false by done. done.
Qed.

Lemma readStrings_newline text : ∀ rds t,
  readStrings text = rds ++ [(t, ErrEOF)] →
  readStrings (text +:+ nl) = rds ++ [(t +:+ nl, ErrNil); (EmptyString, ErrEOF)].
Proof.
  induction text as [|c text IH]; intros rds t Hr.
  - simpl in Hr. destruct rds as [|? [|??]]; simplify_eq/=. done.
  - rewrite append_cons. simpl in *. case_bool_decide as Hc.
    + destruct rds as [|rd rds].
      { injection Hr as _ Hr _. done. }
      injection Hr as <- Hr. by rewrite (IH _ _ Hr).
    + destruct (readStrings text) as [|[l e] r].
      { by destruct rds as [|? [|??]]. }
      destruct rds as [|rd rds]; simpl in Hr; simplify_eq.
      * by rewrite (IH [] l eq_refl).
      * by rewrite (IH ((l, e) :: rds) t eq_refl).
Qed.

(** The lines of a file hold no newline once stripped, and none comes with
    a read error. *)
Lemma readStrings_lines text raw err :
  (raw, err) ∈ readStrings text → err ≠ ErrIO ∧ no_newline (TrimSpace raw).
Proof.
  destruct (readStrings_shape text) as (rds & t & -> & Ht & Hall).
  rewrite elem_of_app, list_elem_of_singleton. intros [Hin|[= -> ->]].
  - rewrite Forall_forall in Hall.
    destruct (Hall _ Hin) as (body & [= -> ->] & Hbody).
    split; [done|]. rewrite TrimSpace_newline. by apply no_newline_TrimSpace.
  - split; [done|]. by apply no_newline_TrimSpace.
Qed.

(** ** The regular expressions *)

Lemma is_word_not_special c :
  is_word c → c ≠ "="%char ∧ c ≠ "["%char ∧ c ≠ "#"%char.
Proof. intros Hw. repeat split; intros ->; done. Qed.

Lemma splitKey_word k : ∀ v,
  all_word k → splitKey (k +:+ "=" +:+ v) = Some (k, v).
Proof.
  induction k as [|c k IH]; intros v Hk; [done|].
  simpl in Hk. apply andb_prop_elim in Hk as [Hc Hk].
  rewrite append_cons. simpl.
  rewrite bool_decide_false by (by apply is_word_not_special).
  destruct (is_word c); [|done]. by rewrite IH.
Qed.

Lemma splitKey_Some s : ∀ k v,
  splitKey s = Some (k, v) → s = k +:+ "=" +:+ v ∧ all_word k.
Proof.
  induction s as [|c s IH]; intros k v; simpl; [done|].
  case_bool_decide as Hc.
  - intros [= <- <-]. by subst c.
  - destruct (is_word c) eqn:Hw; [|done].
    destruct (splitKey s) as [[k' v']|]; [|done]. intros [= <- <-].
    destruct (IH k' v' eq_refl) as [-> Hk']. split; [done|].
    simpl. rewrite Hw. done.
Qed.

(** The language and the groups of [^([\w]+?)=(.+)$]. *)
Lemma keyValRegex_iff s k v :
  keyValRegex s = Some (k, v)
  ↔ s = k +:+ "=" +:+ v ∧ k ≠ EmptyString ∧ all_word k
    ∧ v ≠ EmptyString ∧ no_newline v.
Proof.
  unfold keyValRegex. split.
  - destruct (splitKey s) as [[[|c k'] [|d v']]|] eqn:Hs; try done.
    destruct (no_newline (String d v')) eqn:Hn; [|done]. intros [= <- <-].
    destruct (splitKey_Some _ _ _ Hs) as [-> Hk].
    split; [done|]. split; [done|]. split; [done|]. split; [done|].
    by rewrite Hn.
  - intros (-> & Hk & Hw & Hv & Hn). rewrite splitKey_word by done.
    destruct k; [done|]. destruct v; [done|].
    by destruct (no_newline (String a0 v)).
Qed.

(** Computation of [+:+] on constructors, in a hypothesis. *)
Ltac append_in H := rewrite ?append_cons, ?append_nil_l in H.

Lemma anyThenBracket_iff s :
  anyThenBracket s = true ↔ ∃ m, s = m +:+ "]" ∧ no_newline m.
Proof.
  induction s as [|c s IH]; simpl.
  - split; [done|]. intros ([|??] & Heq & ?); append_in Heq; done.
  - destruct s as [|d s].
    + rewrite bool_decide_eq_true. split.
      * intros ->. by exists EmptyString.
      * intros ([|c' [|??]] & Heq & ?); append_in Heq; by simplify_eq.
    + rewrite andb_true_iff, negb_true_iff, bool_decide_eq_false, IH. split.
      * intros [Hc (m & -> & Hm)]. exists (String c m). split; [done|].
        simpl. by rewrite bool_decide_false.
      * intros ([|c' m] & Heq & Hm); append_in Heq; [done|].
        injection Heq as -> Heq.
        simpl in Hm. apply andb_prop_elim in Hm as [Hc Hm].
        split; [by case_bool_decide|]. by exists m.
Qed.

(** The language of [^\[.*\]$]. *)
Lemma sectionRegex_iff s :
  sectionRegex s = true ↔ ∃ m, s = "[" +:+ m +:+ "]" ∧ no_newline m.
Proof.
  destruct s as [|c s]; simpl.
  - split; [done|]. intros (? & Heq & ?). append_in Heq. done.
  - rewrite andb_true_iff, bool_decide_eq_true, anyThenBracket_iff. split.
    + intros [-> (m & -> & Hm)]. by exists m.
    + intros (m & Heq & Hm). append_in Heq. injection Heq as -> ->.
      split; [done|]. by exists m.
Qed.

Lemma substring_prefix m : ∀ t,
  String.substring 0 (String.length m) (m +:+ t) = m.
Proof.
  induction m as [|c m IH]; intros t.
  - rewrite append_nil_l. by destruct t.
  - rewrite append_cons. simpl. by rewrite IH.
Qed.

Lemma length_append s t :
  String.length (s +:+ t) = (String.length s + String.length t)%nat.
Proof. induction s as [|c s IH]; [done|]. rewrite append_cons. simpl. by rewrite IH. Qed.

Lemma inner_brackets m : inner ("[" +:+ m +:+ "]") = m.
Proof.
  unfold inner. rewrite !append_cons, append_nil_l. simpl String.length.
  rewrite length_append. simpl.
  replace (String.length m + 1 - 1)%nat with (String.length m) by lia.
  apply substring_prefix.
Qed.

(** ** parseTemplate *)

Lemma parseLoop_app rds1 : ∀ rds2 st,
  parseLoop (rds1 ++ rds2) st
  = match advance rds1 st with
    | Some st1 => parseLoop rds2 st1
    | None => parseLoop rds1 st
    end.
Proof.
  induction rds1 as [|rd rds1 IH]; intros rds2 st; simpl; [done|].
  destruct (parseLine st rd); [apply IH|done..].
Qed.

Lemma afterLine_lineNum err st :
  match afterLine err st with
  | Continue st' | Break st' => st' = st
  | Fail _ => False
  end.
Proof. unfold afterLine. by case_bool_decide. Qed.

(** Every iteration that does not fail counts one line and keeps the
    records read so far. *)
Lemma parseLine_step st rd st' :
  parseLine st rd = Continue st' ∨ parseLine st rd = Break st' →
  lineNum st' = lineNum st + 1 ∧ ∃ more, lines st' = lines st ++ more.
Proof.
  destruct rd as [raw err]. unfold parseLine, afterLine.
  intros H. repeat case_match; destruct H as [H|H]; simplify_eq; simpl;
    (split; [done|]); eauto using app_nil_r.
  all: by exists [].
Qed.

Lemma advance_lineNum rds : ∀ st st1,
  advance rds st = Some st1 → lineNum st1 = lineNum st + Z.of_nat (length rds).
Proof.
  induction rds as [|rd rds IH]; intros st st1; simpl.
  - intros [= ->]. lia.
  - destruct (parseLine st rd) as [st'| |] eqn:Hrd; [|done..]. intros Hadv.
    rewrite (IH _ _ Hadv).
    destruct (parseLine_step st rd st') as [-> _]; [by left|]. lia.
Qed.

Lemma parseLoop_grows rds : ∀ st result,
  parseLoop rds st = inr result → ∃ more, result = lines st ++ more.
Proof.
  induction rds as [|rd rds IH]; intros st result; simpl.
  - intros [= <-]. exists []. by rewrite app_nil_r.
  - destruct (parseLine st rd) as [st'|st'|] eqn:Hrd; [| |done].
    + intros Hl. destruct (IH _ _ Hl) as [more ->].
      destruct (parseLine_step st rd st') as [_ [m ->]]; [by left|].
      exists (m ++ more). by rewrite (assoc_L (++)).
    + intros [= <-]. by destruct (parseLine_step st rd st') as [_ ?]; [right|].
Qed.

(** A line that is not a section header keeps the profile context. *)
Lemma parseLine_context st raw err st' :
  sectionRegex (TrimSpace raw) = false →
  parseLine st (raw, err) = Continue st' → curProfile st' = curProfile st.
Proof.
  unfold parseLine, afterLine. intros ->.
  repeat case_match; intros; by simplify_eq.
Qed.

Lemma advance_context rds : ∀ st st1,
  advance rds st = Some st1 →
  (∀ r e, (r, e) ∈ rds → sectionRegex (TrimSpace r) = false) →
  curProfile st1 = curProfile st.
Proof.
  induction rds as [|[raw err] rds IH]; intros st st1; cbn [advance].
  - by intros [= ->].
  - destruct (parseLine st (raw, err)) as [st'| |] eqn:Hrd; [|done..].
    intros Hadv Hno. rewrite (IH _ _ Hadv).
    + apply (parseLine_context st raw err); [|done]. apply (Hno raw err). left.
    + intros r e Hin. apply (Hno r e). by right.
Qed.

(** The iteration on a line of the form key=value. *)
Lemma parseLine_setting st raw err k v :
  err ≠ ErrIO → TrimSpace raw = k +:+ "=" +:+ v →
  k ≠ EmptyString → all_word k → v ≠ EmptyString → no_newline v →
  parseLine st (raw, err)
  = afterLine err
      (ParseState (curProfile st) (lineNum st + 1)
         (lines st ++ [SectionLine (curProfile st) (KV k v)])).
Proof.
  intros Herr Hline Hk Hw Hv Hn. unfold parseLine.
  rewrite bool_decide_false by done. rewrite Hline.
  assert (keyValRegex (k +:+ "=" +:+ v) = Some (k, v)) as Hkv
    by (by apply keyValRegex_iff).
  destruct k as [|c k]; [done|]. rewrite append_cons in *.
  simpl in Hw. apply andb_prop_elim in Hw as [Hc _].
  destruct (is_word_not_special c Hc) as (_ & Hb & Hh).
  rewrite bool_decide_false by done.
  unfold sectionRegex. rewrite (bool_decide_false (c = "["%char)) by done.
  simpl andb. cbv iota. by rewrite Hkv.
Qed.

(** C5.  A line that is key=value once stripped, with a key of one or more
    word characters and a value that is the rest after the first [=] and is
    not empty, makes the iteration append the record of that key and value
    tagged with the current profile (first part).  In a file, no stripped
    line holds a newline, so this applies to every such line of a template
    that is read without error (second part): when the lines before it let
    the loop go on, the parse goes on with the record appended, any
    successful result holds the record right after the records read before
    it, and the tag is "default" when no line before is a section
    header. *)
Theorem setting_line_recorded :
  (∀ st raw err k v,
     err ≠ ErrIO → TrimSpace raw = k +:+ "=" +:+ v →
     k ≠ EmptyString → all_word k → v ≠ EmptyString → no_newline v →
     parseLine st (raw, err)
     = afterLine err
         (ParseState (curProfile st) (lineNum st + 1)
            (lines st ++ [SectionLine (curProfile st) (KV k v)])))
  ∧ (∀ text rds1 raw err rds2 st1 k v,
       readStrings text = rds1 ++ (raw, err) :: rds2 →
       advance rds1 initState = Some st1 →
       TrimSpace raw = k +:+ "=" +:+ v →
       k ≠ EmptyString → all_word k → v ≠ EmptyString →
       let st2 := ParseState (curProfile st1) (lineNum st1 + 1)
                    (lines st1 ++ [SectionLine (curProfile st1) (KV k v)]) in
       parseText text
       = (if bool_decide (err = ErrEOF) then inr (lines st2)
          else parseLoop rds2 st2)
       ∧ (∀ result, parseText text = inr result →
            ∃ more, result
                    = lines st1 ++ SectionLine (curProfile st1) (KV k v) :: more)
       ∧ ((∀ r e, (r, e) ∈ rds1 → sectionRegex (TrimSpace r) = false) →
          curProfile st1 = defaultProfileName)).
Proof.
  split; [exact parseLine_setting|].
  intros text rds1 raw err rds2 st1 k v Hr Hadv Hline Hk Hw Hv st2.
  destruct (readStrings_lines text raw err) as [Herr Hn].
  { rewrite Hr, elem_of_app. right. left. }
  rewrite Hline, !no_newline_append in Hn.
  apply andb_prop_elim in Hn as [_ Hn]. apply andb_prop_elim in Hn as [_ Hn].
  assert (parseText text
          = if bool_decide (err = ErrEOF) then inr (lines st2)
            else parseLoop rds2 st2) as Hparse.
  { unfold parseText. rewrite Hr, parseLoop_app, Hadv. cbn [parseLoop].
    rewrite (parseLine_setting st1 raw err k v) by done.
    unfold afterLine. fold st2. by case_bool_decide. }
  split; [done|]. split.
  - intros result. rewrite Hparse. case_bool_decide.
    + intros [= <-]. exists []. done.
    + intros Hl. destruct (parseLoop_grows _ _ _ Hl) as [more ->].
      exists more. simpl. by rewrite <- (assoc_L (++)).
  - intros Hno. by apply (advance_context rds1 initState).
Qed.

Lemma setting_line_recorded_witness :
  parseLine initState ("  TLP_ENABLE=a=b " +:+ nl, ErrNil)
  = afterLine ErrNil
      (ParseState defaultProfileName 1
         [SectionLine defaultProfileName (KV "TLP_ENABLE" "a=b")]).
Proof.
  apply (proj1 setting_line_recorded initState ("  TLP_ENABLE=a=b " +:+ nl)
           ErrNil "TLP_ENABLE" "a=b");
    [discriminate | vm_compute; reflexivity | discriminate | exact I
    | discriminate | exact I].
Defined.

Lemma parseLine_malformed_section st raw err name :
  err ≠ ErrIO → TrimSpace raw = "[" +:+ name +:+ "]" → no_newline name →
  validSectionNameRegex name = false →
  parseLine st (raw, err) = Fail (ErrMalformedSection name (lineNum st + 1)).
Proof.
  intros Herr Hline Hn Hbad. unfold parseLine.
  rewrite bool_decide_false by done. rewrite Hline.
  assert (sectionRegex ("[" +:+ name +:+ "]") = true) as Hsec
    by (apply sectionRegex_iff; by exists name).
  rewrite inner_brackets, Hbad.
  rewrite append_cons in *. rewrite bool_decide_false by done.
  by rewrite Hsec.
Qed.

Lemma parseLine_malformed st raw err c rest :
  err ≠ ErrIO → TrimSpace raw = String c rest → c ≠ "#"%char →
  sectionRegex (String c rest) && validSectionNameRegex (inner (String c rest))
  = false →
  keyValRegex (String c rest) = None →
  parseLine st (raw, err)
  = Fail (if sectionRegex (String c rest)
          then ErrMalformedSection (inner (String c rest)) (lineNum st + 1)
          else ErrMalformedLine (lineNum st + 1) (String c rest)).
Proof.
  intros Herr Hline Hc Hsec Hkv. unfold parseLine.
  rewrite bool_decide_false by done. rewrite Hline.
  rewrite bool_decide_false by done.
  destruct (sectionRegex (String c rest)); simpl in Hsec.
  - by rewrite Hsec.
  - by rewrite Hkv.
Qed.

Lemma parseLine_nil_goes_on st raw st' :
  parseLine st (raw, ErrNil) ≠ Break st'.
Proof. unfold parseLine, afterLine. simpl. by repeat case_match. Qed.

Lemma advance_None rds : ∀ st,
  Forall (λ rd, rd.2 = ErrNil) rds → advance rds st = None →
  ∃ e, parseLoop rds st = inl e.
Proof.
  induction rds as [|[raw err] rds IH]; intros st Hall; cbn [advance parseLoop];
    [done|].
  apply Forall_cons in Hall as [Herr Hall]. simpl in Herr. subst err.
  destruct (parseLine st (raw, ErrNil)) as [st'|st'|e] eqn:Hrd.
  - by apply IH.
  - by apply parseLine_nil_goes_on in Hrd.
  - by exists e.
Qed.

Lemma readStrings_before text rds1 rd rds2 :
  readStrings text = rds1 ++ rd :: rds2 → Forall (λ rd, rd.2 = ErrNil) rds1.
Proof.
  destruct (readStrings_shape text) as (rds & t & -> & _ & Hall). intros Heq.
  apply Forall_lookup. intros i x Hx.
  assert (length rds1 ≤ length rds)%nat as Hlen.
  { apply (f_equal length) in Heq. rewrite !length_app in Heq. simpl in Heq. lia. }
  pose proof (lookup_lt_Some _ _ _ Hx) as Hi.
  assert (rds !! i = Some x) as Hin.
  { rewrite <- (lookup_app_l rds [(t, ErrEOF)]) by lia.
    rewrite Heq. by rewrite lookup_app_l by lia. }
  rewrite Forall_lookup in Hall.
  by destruct (Hall i x Hin) as (body & -> & _).
Qed.

(** A failing line of a file makes the whole parse fail; when the lines
    before it let the loop go on, the error is the one of that line and its
    number is the position of the line in the file. *)
Lemma parseText_fails text rds1 raw err rds2 (e : Z → parseError) :
  readStrings text = rds1 ++ (raw, err) :: rds2 →
  (∀ st, parseLine st (raw, err) = Fail (e (lineNum st + 1))) →
  (∃ e', parseText text = inl e')
  ∧ (∀ st1, advance rds1 initState = Some st1 →
       parseText text = inl (e (Z.of_nat (length rds1) + 1))).
Proof.
  intros Hr Hfail. unfold parseText. rewrite Hr, parseLoop_app.
  destruct (advance rds1 initState) as [st1|] eqn:Hadv.
  - cbn [parseLoop]. rewrite Hfail.
    rewrite (advance_lineNum _ _ _ Hadv). simpl lineNum. rewrite Z.add_0_l.
    split; [by eexists|]. by intros ? [= <-].
  - split; [|done]. apply advance_None; [|done].
    by apply (readStrings_before text rds1 (raw, err) rds2).
Qed.

(** C6.  A stripped line between brackets whose name is not made of one or
    more letters, digits and underscores makes the iteration fail with the
    error that carries the name and the number of the line.  A line that is
    neither blank nor a comment, neither a section header with a valid name
    nor a key=value pair, makes it fail with an error that carries the
    number of the line and its content: the stripped line, or the name
    between the brackets when the line is between brackets.  In a file,
    such a line makes [parseText] return an error and no template; when the
    lines before it are accepted, the error is the one of this line, with
    its position in the file as the line number. *)
Theorem malformed_lines_fail :
  (∀ st raw err name,
     err ≠ ErrIO → TrimSpace raw = "[" +:+ name +:+ "]" → no_newline name →
     validSectionNameRegex name = false →
     parseLine st (raw, err) = Fail (ErrMalformedSection name (lineNum st + 1)))
  ∧ (∀ st raw err c rest,
       err ≠ ErrIO → TrimSpace raw = String c rest → c ≠ "#"%char →
       sectionRegex (String c rest)
       && validSectionNameRegex (inner (String c rest)) = false →
       keyValRegex (String c rest) = None →
       parseLine st (raw, err)
       = Fail (if sectionRegex (String c rest)
               then ErrMalformedSection (inner (String c rest)) (lineNum st + 1)
               else ErrMalformedLine (lineNum st + 1) (String c rest)))
  ∧ (∀ text rds1 raw err rds2 name,
       readStrings text = rds1 ++ (raw, err) :: rds2 →
       TrimSpace raw = "[" +:+ name +:+ "]" →
       validSectionNameRegex name = false →
       (∃ e, parseText text = inl e)
       ∧ (∀ st1, advance rds1 initState = Some st1 →
            parseText text
            = inl (ErrMalformedSection name (Z.of_nat (length rds1) + 1))))
  ∧ (∀ text rds1 raw err rds2 c rest,
       readStrings text = rds1 ++ (raw, err) :: rds2 →
       TrimSpace raw = String c rest → c ≠ "#"%char →
       sectionRegex (String c rest) = false →
       keyValRegex (String c rest) = None →
       (∃ e, parseText text = inl e)
       ∧ (∀ st1, advance rds1 initState = Some st1 →
            parseText text
            = inl (ErrMalformedLine (Z.of_nat (length rds1) + 1)
                     (String c rest)))).
Proof.
  split; [exact parseLine_malformed_section|].
  split; [exact parseLine_malformed|]. split.
  - intros text rds1 raw err rds2 name Hr Hline Hbad.
    destruct (readStrings_lines text raw err) as [Herr Hn].
    { rewrite Hr, elem_of_app. right. left. }
    rewrite Hline, !no_newline_append in Hn.
    apply andb_prop_elim in Hn as [_ Hn]. apply andb_prop_elim in Hn as [Hn _].
    apply (parseText_fails text rds1 raw err rds2
             (λ n, ErrMalformedSection name n) Hr).
    intros st. by apply parseLine_malformed_section.
  - intros text rds1 raw err rds2 c rest Hr Hline Hc Hsec Hkv.
    destruct (readStrings_lines text raw err) as [Herr _].
    { rewrite Hr, elem_of_app. right. left. }
    apply (parseText_fails text rds1 raw err rds2
             (λ n, ErrMalformedLine n (String c rest)) Hr).
    intros st. rewrite (parseLine_malformed st raw err c rest) by
      (done || by rewrite Hsec). by rewrite Hsec.
Qed.

Lemma malformed_lines_fail_witness :
  parseLine initState (" [ba t]" +:+ nl, ErrNil)
  = Fail (ErrMalformedSection "ba t" 1).
Proof.
  apply (proj1 malformed_lines_fail initState (" [ba t]" +:+ nl) ErrNil "ba t");
    [discriminate | vm_compute; reflexivity | exact I | reflexivity].
Defined.

Lemma parseLine_newline st t :
  parseLine st (t +:+ nl, ErrNil)
  = match parseLine st (t, ErrEOF) with
    | Break st' => Continue st'
    | r => r
    end.
Proof.
  unfold parseLine, afterLine. rewrite TrimSpace_newline. simpl.
  by repeat case_match.
Qed.

Lemma parseLine_eof st raw :
  parseLine st (raw, ErrEOF)
  = match parseLine st (raw, ErrNil) with
    | Continue st' => Break st'
    | r => r
    end.
Proof. unfold parseLine, afterLine. simpl. by repeat case_match. Qed.

Lemma parseLine_header st raw err name :
  err ≠ ErrIO → TrimSpace raw = "[" +:+ name +:+ "]" → no_newline name →
  validSectionNameRegex name = true →
  parseLine st (raw, err)
  = afterLine err (ParseState name (lineNum st + 1) (lines st)).
Proof.
  intros Herr Hline Hn Hok. unfold parseLine.
  rewrite bool_decide_false by done. rewrite Hline.
  assert (sectionRegex ("[" +:+ name +:+ "]") = true) as Hsec
    by (apply sectionRegex_iff; by exists name).
  rewrite inner_brackets, Hok.
  rewrite append_cons in *. rewrite bool_decide_false by done.
  by rewrite Hsec.
Qed.

(** The parse of a text whose reads before the last let the loop go on is
    decided by the iteration on the last read, the one that comes with
    [io.EOF]. *)
Lemma parseText_last text rds t st1 :
  readStrings text = rds ++ [(t, ErrEOF)] →
  advance rds initState = Some st1 →
  parseText text
  = match parseLine st1 (t, ErrEOF) with
    | Continue st' | Break st' => inr (lines st')
    | Fail e => inl e
    end.
Proof.
  intros Hr Hadv. unfold parseText. rewrite Hr, parseLoop_app, Hadv.
  cbn [parseLoop]. by destruct (parseLine st1 (t, ErrEOF)).
Qed.

Lemma parseText_newline text : parseText (text +:+ nl) = parseText text.
Proof.
  unfold parseText.
  destruct (readStrings_shape text) as (rds & t & Hr & _ & _).
  rewrite (readStrings_newline text rds t Hr), Hr, !parseLoop_app.
  destruct (advance rds initState) as [st1|]; [|done].
  cbn [parseLoop]. rewrite parseLine_newline.
  destruct (parseLine st1 (t, ErrEOF)) as [st'|st'|e] eqn:Hrd; [|done..].
  rewrite parseLine_eof in Hrd.
  by destruct (parseLine st1 (t, ErrNil)).
Qed.

(** C7.  A template text and the same text followed by a newline parse to
    the same result, whether a template or an error (part 1).  The last
    line is processed like any other: an iteration on a read that comes
    with [io.EOF] does what it does on the same read without it, except
    that the loop ends after it (part 2).  So, on the read that comes with
    [io.EOF]: a key=value line is recorded under the current profile and
    the loop ends with it (part 3); a section header with a valid name
    makes its name the current profile (part 4); a header with an invalid
    name fails with the error that carries the name and the line number
    (part 5); a line that is neither blank, comment, valid header nor
    key=value fails with the error of that line (part 6).  In a file whose
    last line has no newline and whose lines before it are accepted, with
    [st1] the state they lead to: a key=value last line makes the template
    end with its record, tagged with the profile of [st1], with or without
    a final newline (part 7); a valid header as last line is accepted and
    the template is the one of the lines before it (part 8); a header with
    an invalid name, or a malformed line, makes the parse fail with the
    error of the last line, with or without a final newline (parts 9 and
    10). *)
Theorem final_newline_optional :
  (∀ text, parseText (text +:+ nl) = parseText text)
  ∧ (∀ st raw,
       parseLine st (raw, ErrEOF)
       = match parseLine st (raw, ErrNil) with
         | Continue st' => Break st'
         | r => r
         end)
  ∧ (∀ st raw k v,
       TrimSpace raw = k +:+ "=" +:+ v →
       k ≠ EmptyString → all_word k → v ≠ EmptyString → no_newline v →
       parseLine st (raw, ErrEOF)
       = Break (ParseState (curProfile st) (lineNum st + 1)
                  (lines st ++ [SectionLine (curProfile st) (KV k v)])))
  ∧ (∀ st raw name,
       TrimSpace raw = "[" +:+ name +:+ "]" → no_newline name →
       validSectionNameRegex name = true →
       parseLine st (raw, ErrEOF)
       = Break (ParseState name (lineNum st + 1) (lines st)))
  ∧ (∀ st raw name,
       TrimSpace raw = "[" +:+ name +:+ "]" → no_newline name →
       validSectionNameRegex name = false →
       parseLine st (raw, ErrEOF)
       = Fail (ErrMalformedSection name (lineNum st + 1)))
  ∧ (∀ st raw c rest,
       TrimSpace raw = String c rest → c ≠ "#"%char →
       sectionRegex (String c rest)
       && validSectionNameRegex (inner (String c rest)) = false →
       keyValRegex (String c rest) = None →
       parseLine st (raw, ErrEOF)
       = Fail (if sectionRegex (String c rest)
               then ErrMalformedSection (inner (String c rest)) (lineNum st + 1)
               else ErrMalformedLine (lineNum st + 1) (String c rest)))
  ∧ (∀ text rds t st1 k v,
       readStrings text = rds ++ [(t, ErrEOF)] →
       advance rds initState = Some st1 →
       TrimSpace t = k +:+ "=" +:+ v →
       k ≠ EmptyString → all_word k → v ≠ EmptyString →
       parseText text
       = inr (lines st1 ++ [SectionLine (curProfile st1) (KV k v)])
       ∧ parseText (text +:+ nl)
         = inr (lines st1 ++ [SectionLine (curProfile st1) (KV k v)]))
  ∧ (∀ text rds t st1 name,
       readStrings text = rds ++ [(t, ErrEOF)] →
       advance rds initState = Some st1 →
       TrimSpace t = "[" +:+ name +:+ "]" →
       validSectionNameRegex name = true →
       parseLine st1 (t, ErrEOF)
       = Break (ParseState name (Z.of_nat (length rds) + 1) (lines st1))
       ∧ parseText text = inr (lines st1)
       ∧ parseText (text +:+ nl) = inr (lines st1))
  ∧ (∀ text rds t st1 name,
       readStrings text = rds ++ [(t, ErrEOF)] →
       advance rds initState = Some st1 →
       TrimSpace t = "[" +:+ name +:+ "]" →
       validSectionNameRegex name = false →
       parseText text
       = inl (ErrMalformedSection name (Z.of_nat (length rds) + 1))
       ∧ parseText (text +:+ nl)
         = inl (ErrMalformedSection name (Z.of_nat (length rds) + 1)))
  ∧ (∀ text rds t st1 c rest,
       readStrings text = rds ++ [(t, ErrEOF)] →
       advance rds initState = Some st1 →
       TrimSpace t = String c rest → c ≠ "#"%char →
       sectionRegex (String c rest) = false →
       keyValRegex (String c rest) = None →
       parseText text
       = inl (ErrMalformedLine (Z.of_nat (length rds) + 1) (String c rest))
       ∧ parseText (text +:+ nl)
         = inl (ErrMalformedLine (Z.of_nat (length rds) + 1) (String c rest))).
Proof.
  split; [exact parseText_newline|]. split; [exact parseLine_eof|].
  split.
  { intros st raw k v Hline Hk Hw Hv Hn.
    by rewrite (parseLine_setting st raw ErrEOF k v). }
  split.
  { intros st raw name Hline Hn Hok.
    by rewrite (parseLine_header st raw ErrEOF name). }
  split.
  { intros st raw name Hline Hn Hbad.
    by apply parseLine_malformed_section. }
  split.
  { intros st raw c rest Hline Hc Hsec Hkv. by apply parseLine_malformed. }
  split.
  { intros text rds t st1 k v Hr Hadv Hline Hk Hw Hv.
    destruct (readStrings_lines text t ErrEOF) as [_ Hn].
    { rewrite Hr, elem_of_app. right. left. }
    rewrite Hline, !no_newline_append in Hn.
    apply andb_prop_elim in Hn as [_ Hn]. apply andb_prop_elim in Hn as [_ Hn].
    rewrite parseText_newline, (parseText_last text rds t st1 Hr Hadv).
    by rewrite (parseLine_setting st1 t ErrEOF k v). }
  split.
  { intros text rds t st1 name Hr Hadv Hline Hok.
    destruct (readStrings_lines text t ErrEOF) as [_ Hn].
    { rewrite Hr, elem_of_app. right. left. }
    rewrite Hline, !no_newline_append in Hn.
    apply andb_prop_elim in Hn as [_ Hn]. apply andb_prop_elim in Hn as [Hn _].
    rewrite parseText_newline, (parseText_last text rds t st1 Hr Hadv).
    rewrite (parseLine_header st1 t ErrEOF name) by done.
    rewrite (advance_lineNum _ _ _ Hadv). simpl lineNum. rewrite Z.add_0_l.
    done. }
  split.
  { intros text rds t st1 name Hr Hadv Hline Hbad.
    destruct (readStrings_lines text t ErrEOF) as [_ Hn].
    { rewrite Hr, elem_of_app. right. left. }
    rewrite Hline, !no_newline_append in Hn.
    apply andb_prop_elim in Hn as [_ Hn]. apply andb_prop_elim in Hn as [Hn _].
    rewrite parseText_newline, (parseText_last text rds t st1 Hr Hadv).
    rewrite (parseLine_malformed_section st1 t ErrEOF name) by done.
    rewrite (advance_lineNum _ _ _ Hadv). simpl lineNum. rewrite Z.add_0_l.
    done. }
  intros text rds t st1 c rest Hr Hadv Hline Hc Hsec Hkv.
  rewrite parseText_newline, (parseText_last text rds t st1 Hr Hadv).
  rewrite (parseLine_malformed st1 t ErrEOF c rest) by
    (done || by rewrite Hsec).
  rewrite Hsec, (advance_lineNum _ _ _ Hadv). simpl lineNum.
  rewrite Z.add_0_l. done.
Qed.

Lemma final_newline_optional_witness :
  parseLine (ParseState "bat" 3 scenario) ("  CPU_BOOST=0 ", ErrEOF)
  = Break (ParseState "bat" 4 (scenario ++ [SectionLine "bat" (KV "CPU_BOOST" "0")]))
  ∧ parseLine (ParseState "bat" 3 scenario) ("[ac]", ErrEOF)
    = Break (ParseState "ac" 4 scenario)
  ∧ parseLine (ParseState "bat" 3 scenario) ("[a c]", ErrEOF)
    = Fail (ErrMalformedSection "a c" 4)
  ∧ parseLine (ParseState "bat" 3 scenario) ("CPU BOOST", ErrEOF)
    = Fail (ErrMalformedLine 4 "CPU BOOST")
  ∧ parseText ("A=1" +:+ nl +:+ "[bat]" +:+ nl +:+ "B=2")
    = inr [SectionLine "default" (KV "A" "1"); SectionLine "bat" (KV "B" "2")]
  ∧ parseText ("A=1" +:+ nl +:+ "[bat]" +:+ nl +:+ "B=2" +:+ nl)
    = inr [SectionLine "default" (KV "A" "1"); SectionLine "bat" (KV "B" "2")]
  ∧ parseText ("A=1" +:+ nl +:+ "B 2")
    = inl (ErrMalformedLine 2 "B 2").
Proof.
  pose proof final_newline_optional
    as (_ & _ & Hkv & Hhdr & Hbad & Hmal & Hfile & _ & _ & Hfmal).
  split.
  { apply (Hkv (ParseState "bat" 3 scenario) "  CPU_BOOST=0 " "CPU_BOOST" "0");
      [vm_compute; reflexivity | discriminate | exact I | discriminate
      | exact I]. }
  split.
  { apply (Hhdr (ParseState "bat" 3 scenario) "[ac]" "ac");
      [vm_compute; reflexivity | exact I | reflexivity]. }
  split.
  { apply (Hbad (ParseState "bat" 3 scenario) "[a c]" "a c");
      [vm_compute; reflexivity | exact I | reflexivity]. }
  split.
  { apply (Hmal (ParseState "bat" 3 scenario) "CPU BOOST" "C"%char "PU BOOST");
      [vm_compute; reflexivity | discriminate | reflexivity | reflexivity]. }
  assert (parseText ("A=1" +:+ nl +:+ "[bat]" +:+ nl +:+ "B=2")
          = inr [SectionLine "default" (KV "A" "1");
                 SectionLine "bat" (KV "B" "2")]
          ∧ parseText (("A=1" +:+ nl +:+ "[bat]" +:+ nl +:+ "B=2") +:+ nl)
            = inr [SectionLine "default" (KV "A" "1");
                   SectionLine "bat" (KV "B" "2")]) as [H1 H2].
  { apply (Hfile ("A=1" +:+ nl +:+ "[bat]" +:+ nl +:+ "B=2")
             [("A=1" +:+ nl, ErrNil); ("[bat]" +:+ nl, ErrNil)] "B=2"
             (ParseState "bat" 2 [SectionLine "default" (KV "A" "1")])
             "B" "2");
      [vm_compute; reflexivity | vm_compute; reflexivity
      | vm_compute; reflexivity | discriminate | exact I | discriminate]. }
  split; [exact H1|]. split; [exact H2|].
  apply (Hfmal ("A=1" +:+ nl +:+ "B 2") [("A=1" +:+ nl, ErrNil)] "B 2"
           (ParseState "default" 1 [SectionLine "default" (KV "A" "1")])
           "B"%char " 2");
    [vm_compute; reflexivity | vm_compute; reflexivity
    | vm_compute; reflexivity | discriminate | reflexivity | reflexivity].
Defined.

(** ** The two parsers *)

(** C9.  The two parsers differ on a well-formed template.  The two lines
    of [bracket_value_text] are key=value lines, and [parseTemplate] of
    [main.go] records both under "default".  The section pattern of the
    earlier parser is not anchored at the start of the line: it matches the
    end of the first line, which is then taken for a section header, so
    that nothing is recorded for it, the profile becomes the line without
    its first and last characters, and the second line is recorded under
    that profile. *)
Theorem section_pattern_unanchored :
  Forall (λ rd, rd.2 ≠ ErrIO ∧ well_formed_line (TrimSpace rd.1))
    (readStrings bracket_value_text)
  ∧ parseText bracket_value_text
    = inr [SectionLine "default" (KV "KEY" "[abc]");
           SectionLine "default" (KV "X" "1")]
  ∧ Earlier.parseText bracket_value_text
    = inr [SectionLine "EY=[abc" (KV "X" "1")].
Proof.
  split; [|split; vm_compute; reflexivity].
  assert (∀ k v, is_Some (Some (k, v) : option (string * string))) as Hsome
    by (intros; by eexists).
  assert (readStrings bracket_value_text
          = [("KEY=[abc]" +:+ nl, ErrNil); ("X=1" +:+ nl, ErrNil);
             (EmptyString, ErrEOF)]) as -> by (vm_compute; reflexivity).
  repeat apply Forall_cons_2; [| | |apply Forall_nil_2];
    (split; [discriminate|]).
  - right. right. vm_compute keyValRegex. apply Hsome.
  - right. right. vm_compute keyValRegex. apply Hsome.
  - exact I.
Qed.

Lemma wordsThenBracket_name name :
  validSectionNameRegex name = true →
  Earlier.wordsThenBracket (name +:+ "]") = true.
Proof.
  destruct name as [|c name]; [done|]. simpl validSectionNameRegex.
  revert c. induction name as [|d name IH]; intros c Hw;
    change (all_word (String c ?s)) with (is_word c && all_word s) in Hw;
    apply andb_true_iff in Hw as [Hc Hw]; rewrite append_cons.
  - rewrite append_nil_l. cbn [Earlier.wordsThenBracket]. rewrite Hc.
    by rewrite bool_decide_true.
  - specialize (IH d Hw). cbn [Earlier.wordsThenBracket]. rewrite Hc.
    cbn [Earlier.wordsThenBracket] in IH. rewrite IH.
    by rewrite orb_true_r.
Qed.

(** On a section header with a valid name the two patterns agree. *)
Lemma sectionRegex_agree line :
  sectionRegex line = true → validSectionNameRegex (inner line) = true →
  Earlier.sectionRegex line = true.
Proof.
  intros (m & -> & Hm)%sectionRegex_iff. rewrite inner_brackets. intros Hv.
  rewrite append_cons, append_nil_l. simpl.
  by rewrite (wordsThenBracket_name m Hv).
Qed.

(** The two parsers agree on the well-formed templates in which no
    key=value line matches the section pattern of the earlier parser. *)
Lemma parsers_agree rds : ∀ st,
  Forall (λ rd, rd.2 ≠ ErrIO ∧ well_formed_line (TrimSpace rd.1)
                ∧ (is_Some (keyValRegex (TrimSpace rd.1)) →
                   Earlier.sectionRegex (TrimSpace rd.1) = false)) rds →
  ∃ result, parseLoop rds st = inr result
            ∧ Earlier.parseLoop rds st = inr result.
Proof.
  induction rds as [|[raw err] rds IH]; intros st Hall.
  - by exists (lines st).
  - apply Forall_cons in Hall as [(Herr & Hwf & Hkv) Hall]. simpl in *.
    cbn [parseLoop Earlier.parseLoop].
    unfold parseLine, Earlier.parseLine, afterLine, Earlier.afterLine.
    rewrite !bool_decide_false by done.
    destruct (TrimSpace raw) as [|c rest] eqn:Hline.
    { case_bool_decide; [by eexists|]. apply IH, Hall. }
    case_bool_decide as Hc.
    { case_bool_decide; [by eexists|]. apply IH, Hall. }
    destruct Hwf as [?|[[Hsec Hname]|Hsome]]; [done| |].
    + rewrite Hsec, Hname, (sectionRegex_agree _ Hsec Hname). simpl.
      case_bool_decide; [by eexists|]. apply IH, Hall.
    + rewrite (Hkv Hsome). destruct Hsome as [[k v] Hsome].
      assert (sectionRegex (String c rest) = false) as ->.
      { apply keyValRegex_iff in Hsome as (Heq & Hk & Hw & _).
        destruct k as [|c' k]; [done|]. rewrite append_cons in Heq.
        injection Heq as -> _. simpl in Hw.
        apply andb_prop_elim in Hw as [Hc' _].
        destruct (is_word_not_special c' Hc') as (_ & ? & _).
        simpl. by rewrite bool_decide_false. }
      unfold Earlier.keyValRegex. unfold keyValRegex in Hsome.
      unfold keyValRegex. rewrite Hsome.
      case_bool_decide; [by eexists|]. apply IH, Hall.
Qed.

(** ** getProfiles *)

Lemma profileSet_spec sls : ∀ p,
  p ∈ profileSet sls ↔ ∃ sl, sl ∈ sls ∧ profile sl = p.
Proof.
  unfold profileSet.
  assert (∀ (acc : gset string) p,
            p ∈ foldl (λ ps sl, {[profile sl]} ∪ ps) acc sls
            ↔ p ∈ acc ∨ ∃ sl, sl ∈ sls ∧ profile sl = p) as H.
  { induction sls as [|x sls IH]; intros acc p; simpl.
    - split; [auto|]. intros [?|(? & ?%elem_of_nil & _)]; done.
    - rewrite IH. rewrite elem_of_union, elem_of_singleton. split.
      + intros [[->|?]|(sl & ? & ?)]; [right; exists x; split; [left|done]
                                       |by left|].
        right. exists sl. split; [by right|done].
      + intros [?|(sl & [->|?]%elem_of_cons & ?)]; [by left; right|by left; left|].
        right. by exists sl. }
  intros p. rewrite H. split; [|auto]. intros [?%elem_of_empty|?]; done.
Qed.

(** C8.  [getProfiles] returns "default" first, then the other profile
    names of the template, each once, in ascending order of their bytes;
    "default" is there whether or not a record carries it, and nowhere
    else in the list.  The result does not depend on the order in which
    the keys of the map are visited. *)
Theorem getProfiles_sorted (sls : list sectionLine) :
  ∃ rest,
    getProfiles sls = defaultProfileName :: rest
    ∧ NoDup (getProfiles sls)
    ∧ Sorted String.le rest
    ∧ (∀ p, p ∈ rest
            ↔ p ≠ defaultProfileName ∧ ∃ sl, sl ∈ sls ∧ profile sl = p)
    ∧ (∀ psArr,
         psArr ≡ₚ elements (profileSet sls ∖ {[ defaultProfileName ]}) →
         getProfilesFrom psArr = getProfiles sls).
Proof.
  set (ps := profileSet sls ∖ {[ defaultProfileName ]}).
  exists (slices_Sort (elements ps)). unfold getProfiles, getProfilesFrom.
  fold ps. unfold slices_Sort.
  assert (∀ p, p ∈ merge_sort String.le (elements ps)
               ↔ p ≠ defaultProfileName ∧ ∃ sl, sl ∈ sls ∧ profile sl = p)
    as Hmem.
  { intros p. rewrite merge_sort_Permutation, elem_of_elements. unfold ps.
    rewrite elem_of_difference, elem_of_singleton, profileSet_spec. tauto. }
  split; [done|]. split; [|split; [|split; [done|]]].
  - apply NoDup_cons. split.
    + rewrite Hmem. tauto.
    + rewrite merge_sort_Permutation. apply NoDup_elements.
  - apply Sorted_merge_sort. apply _.
  - intros psArr Hperm. f_equal.
    apply (Sorted_unique String.le).
    + apply Sorted_merge_sort. apply _.
    + apply Sorted_merge_sort. apply _.
    + by rewrite !merge_sort_Permutation.
Qed.

Example getProfiles_example :
  getProfiles [SectionLine "powerbank" (KV "A" "1");
               SectionLine "bat" (KV "A" "2");
               SectionLine "Zeta" (KV "A" "3");
               SectionLine "bat" (KV "B" "4")]
  = ["default"; "Zeta"; "bat"; "powerbank"].
Proof. vm_compute. reflexivity. Qed.

Lemma getProfiles_sorted_witness :
  ∃ rest,
    getProfiles [SectionLine "bat" (KV "A" "2"); SectionLine "ac" (KV "A" "3")]
    = defaultProfileName :: rest
    ∧ getProfilesFrom ["bat"; "ac"]
      = getProfiles [SectionLine "bat" (KV "A" "2");
                     SectionLine "ac" (KV "A" "3")].
Proof.
  destruct (getProfiles_sorted
              [SectionLine "bat" (KV "A" "2"); SectionLine "ac" (KV "A" "3")])
    as (rest & Heq & _ & _ & _ & Horder).
  exists rest. split; [exact Heq|]. apply Horder.
  vm_compute. apply perm_swap.
Defined.

(** * Further properties *)

(** ** The merge loops *)

(** X1.  The scan of [templateCache] for one profile, from its first index:
    it ends within [len(templateCache)] iterations without a panic, it
    appends the settings of the matching records in their order, each with
    its index in [settingIdx], and it leaves in [templateCache] the other
    records in their order.  Deleting under the loop index neither skips
    nor revisits a record. *)
Theorem scanCache_partitions σ c l p sts idx :
  slice_view σ c = Some l →
  ∃ c' σ',
    scanCache (len c) p 0 (MergeState c sts idx) σ
    = Some (MergeState c'
              (sts ++ (setting <$> filter (λ sl, profile sl = p) l))
              (foldl record (sts, idx)
                 (setting <$> filter (λ sl, profile sl = p) l)).2, σ')
    ∧ slice_view σ' c' = Some (filter (λ sl, profile sl ≠ p) l).
Proof.
  intros Hv.
  destruct (scanCache_spec (len c) p σ c l 0 sts idx Hv) as (arr & Hrun & Hv');
    [lia | rewrite (slice_view_length _ _ _ Hv); lia |].
  change (Z.of_nat 0) with 0 in Hrun. rewrite take_0, drop_0 in Hrun, Hv'.
  simpl in Hrun, Hv'.
  destruct (record_all (setting <$> filter (λ sl, profile sl = p) l) sts idx)
    as (H1 & _).
  cbv zeta in H1. rewrite H1 in Hrun. eauto.
Qed.

Lemma scanCache_partitions_witness :
  ∃ c' σ',
    scanCache (len (whole three_profiles)) "b" 0
      (MergeState (whole three_profiles) [] ∅) (store_of three_profiles)
    = Some (MergeState c'
              ([] ++ (setting <$> filter (λ sl, profile sl = "b") three_profiles))
              (foldl record ([], ∅)
                 (setting <$> filter (λ sl, profile sl = "b") three_profiles)).2,
            σ')
    ∧ slice_view σ' c'
      = Some (filter (λ sl, profile sl ≠ "b") three_profiles).
Proof.
  apply (scanCache_partitions (store_of three_profiles) (whole three_profiles)
           three_profiles "b" [] ∅).
  reflexivity.
Defined.

(** ** What is printed *)

Lemma lastWrites_keys l k : k ∈ key <$> lastWrites l ↔ k ∈ key <$> l.
Proof.
  induction l as [|x l IH]; simpl; [done|].
  case_bool_decide as Hx; rewrite ?fmap_cons, ?elem_of_cons, IH; [|done].
  split; [auto|]. intros [->|?]; done.
Qed.

Lemma lastWrites_NoDup l : NoDup (key <$> lastWrites l).
Proof.
  induction l as [|x l IH]; simpl; [constructor|].
  case_bool_decide as Hx; [done|]. rewrite fmap_cons. constructor; [|done].
  by rewrite lastWrites_keys.
Qed.

Lemma lastWrites_elem l e :
  e ∈ lastWrites l
  ↔ ∃ pre post, l = pre ++ e :: post ∧ key e ∉ key <$> post.
Proof.
  induction l as [|x l IH]; simpl.
  - split; [by intros ?%elem_of_nil|]. by intros ([|??] & ? & ? & _).
  - split.
    + intros Hin.
      assert (e ∈ lastWrites l → ∃ pre post,
                x :: l = pre ++ e :: post ∧ key e ∉ key <$> post) as Htail.
      { intros (pre & post & -> & Hpost)%IH. by exists (x :: pre), post. }
      case_bool_decide as Hx; [by apply Htail|].
      apply elem_of_cons in Hin as [->|Hin]; [|by apply Htail].
      by exists [], l.
    + intros ([|y pre] & post & Heq & Hpost); simplify_eq/=.
      * rewrite bool_decide_false by done. left.
      * assert (e ∈ lastWrites (pre ++ e :: post)) as Hin
          by (apply IH; eauto).
        case_bool_decide; [done|by right].
Qed.

Lemma lastWrites_sublist l : lastWrites l `sublist_of` l.
Proof.
  induction l as [|x l IH]; simpl; [done|].
  case_bool_decide; [by apply sublist_cons|by apply sublist_skip].
Qed.

Lemma lastWrites_distinct l : NoDup (key <$> l) → lastWrites l = l.
Proof.
  induction l as [|x l IH]; simpl; [done|].
  rewrite NoDup_cons. intros [Hx Hl]. rewrite bool_decide_false by done.
  by rewrite IH.
Qed.

Lemma applied_keys_iff l order k :
  k ∈ key <$> applied l order ↔ ∃ p, p ∈ order ∧ sets l p k.
Proof.
  split.
  - intros (sl & Hsl & Hp & Hk)%applied_keys.
    exists (profile sl). split; [done|]. by exists sl.
  - intros (p & Hp & Hs). by apply (applied_sets order l p).
Qed.

(** X2.  Every key set by a profile of the effective order (default, then the
    selection) has exactly one line in the text, and no other key has a
    line. *)
Theorem one_line_per_key σ tpl l selected :
  slice_view σ tpl = Some l → selected ≠ [] →
  ∃ out,
    output σ tpl selected = Some (header +:+ render out)
    ∧ NoDup (key <$> out)
    ∧ (∀ k, k ∈ key <$> out
            ↔ ∃ p, p ∈ effective_order selected ∧ sets l p k).
Proof.
  intros Hv Hsel. exists (resolved l selected).
  split; [by apply output_spec|]. split; [apply lastWrites_NoDup|].
  intros k. unfold resolved. by rewrite lastWrites_keys, applied_keys_iff.
Qed.

Lemma one_line_per_key_witness :
  ∃ out,
    output (store_of three_profiles) (whole three_profiles) ["a"; "b"]
    = Some (header +:+ render out)
    ∧ NoDup (key <$> out)
    ∧ (∀ k, k ∈ key <$> out
            ↔ ∃ p, p ∈ effective_order ["a"; "b"] ∧ sets three_profiles p k).
Proof.
  apply (one_line_per_key (store_of three_profiles) (whole three_profiles)
           three_profiles ["a"; "b"]); [reflexivity|discriminate].
Defined.

(** X3.  The lines of the text are the applied settings that no later applied
    setting of the same key follows, in the order in which they were
    applied. *)
Theorem last_applied_setting_printed σ tpl l selected :
  slice_view σ tpl = Some l → selected ≠ [] →
  ∃ out,
    output σ tpl selected = Some (header +:+ render out)
    ∧ out `sublist_of` applied l (effective_order selected)
    ∧ (∀ e, e ∈ out
            ↔ ∃ pre post,
                applied l (effective_order selected) = pre ++ e :: post
                ∧ key e ∉ key <$> post).
Proof.
  intros Hv Hsel. exists (resolved l selected).
  split; [by apply output_spec|]. split; [apply lastWrites_sublist|].
  intros e. apply lastWrites_elem.
Qed.

Lemma last_applied_setting_printed_witness :
  ∃ out,
    output (store_of three_profiles) (whole three_profiles) ["a"; "b"]
    = Some (header +:+ render out)
    ∧ out `sublist_of` applied three_profiles (effective_order ["a"; "b"])
    ∧ (∀ e, e ∈ out
            ↔ ∃ pre post,
                applied three_profiles (effective_order ["a"; "b"])
                = pre ++ e :: post
                ∧ key e ∉ key <$> post).
Proof.
  apply (last_applied_setting_printed (store_of three_profiles)
           (whole three_profiles) three_profiles ["a"; "b"]);
    [reflexivity|discriminate].
Defined.

(** ** Selections *)

Lemma filter_none {A} (P : A → Prop) `{∀ x, Decision (P x)} (l : list A) :
  (∀ x, x ∈ l → ¬ P x) → filter P l = [].
Proof.
  induction l as [|x l IH]; intros Hl; [done|].
  rewrite filter_cons_False by (apply Hl; left).
  apply IH. intros y Hy. apply Hl. by right.
Qed.

Lemma filter_profile_nil (l : list sectionLine) p (P : sectionLine → Prop)
    `{∀ x, Decision (P x)} :
  filter (λ sl, profile sl = p) l = [] →
  filter (λ sl, profile sl = p) (filter P l) = [].
Proof.
  induction l as [|x l IH]; [done|].
  destruct (decide (profile x = p)) as [Hp|Hp].
  - by rewrite filter_cons_True.
  - rewrite filter_cons_False by done. intros Hl.
    destruct (decide (P x)).
    + rewrite (filter_cons_True P) by done.
      rewrite filter_cons_False by done. auto.
    + rewrite (filter_cons_False P) by done. auto.
Qed.

Lemma applied_remove_absent o1 : ∀ l p o2,
  filter (λ sl, profile sl = p) l = [] →
  applied l (o1 ++ p :: o2) = applied l (o1 ++ o2).
Proof.
  induction o1 as [|q o1 IH]; intros l p o2 Hnone.
  - by apply applied_absent.
  - rewrite <- !app_comm_cons, !applied_cons. f_equal.
    apply IH. by apply filter_profile_nil.
Qed.

Lemma applied_repeat o1 : ∀ l p o2 o3,
  applied l (o1 ++ p :: o2 ++ p :: o3) = applied l (o1 ++ p :: o2 ++ o3).
Proof.
  induction o1 as [|q o1 IH]; intros l p o2 o3.
  - rewrite !app_nil_l, !applied_cons. f_equal.
    apply applied_remove_absent, filter_consumed.
  - rewrite <- !app_comm_cons, !applied_cons. by rewrite IH.
Qed.

Lemma output_applied σ tpl l sel :
  slice_view σ tpl = Some l → sel ≠ [] →
  output σ tpl sel
  = Some (header +:+ render (lastWrites (applied l (effective_order sel)))).
Proof. apply output_spec. Qed.

(** X4.  Naming a profile again later in the selection changes nothing: the
    text is the one of the selection without the later occurrence.  A
    profile gives its settings at its first turn only. *)
Theorem later_repetition_ignored σ tpl l (l1 : list string) p l2 l3 :
  slice_view σ tpl = Some l →
  output σ tpl (l1 ++ p :: l2 ++ p :: l3)
  = output σ tpl (l1 ++ p :: l2 ++ l3).
Proof.
  intros Hv. rewrite !(output_applied _ _ l) by (done || by destruct l1).
  apply (f_equal (λ x, Some (header +:+ render (lastWrites x)))).
  unfold effective_order, normalize.
  destruct l1 as [|q l1]; rewrite ?app_nil_l, <- ?app_comm_cons.
  - case_bool_decide as Hp.
    + subst p. apply (applied_repeat [] l defaultProfileName l2 l3).
    + apply (applied_repeat [defaultProfileName] l p l2 l3).
  - case_bool_decide as Hq.
    + apply (applied_repeat (defaultProfileName :: l1) l p l2 l3).
    + apply (applied_repeat (defaultProfileName :: q :: l1) l p l2 l3).
Qed.

Lemma later_repetition_ignored_witness :
  output (store_of three_profiles) (whole three_profiles)
    (["c"] ++ "a" :: ["b"] ++ "a" :: [])
  = output (store_of three_profiles) (whole three_profiles)
      (["c"] ++ "a" :: ["b"] ++ []).
Proof.
  apply (later_repetition_ignored (store_of three_profiles)
           (whole three_profiles) three_profiles ["c"] "a" ["b"] []).
  reflexivity.
Defined.

Lemma getProfiles_elem sls p :
  p ∈ getProfiles sls
  ↔ p = defaultProfileName ∨ ∃ sl, sl ∈ sls ∧ profile sl = p.
Proof.
  unfold getProfiles, getProfilesFrom, slices_Sort.
  rewrite elem_of_cons, merge_sort_Permutation, elem_of_elements.
  rewrite elem_of_difference, elem_of_singleton, profileSet_spec.
  destruct (decide (p = defaultProfileName)); tauto.
Qed.

(** X5.  A profile that [getProfiles] does not list gives nothing: selecting it
    beside other profiles is not an error and leaves the text as it is
    without it. *)
Theorem unlisted_profile_ignored σ tpl l (l1 : list string) p l2 :
  slice_view σ tpl = Some l → p ∉ getProfiles l → l1 ++ l2 ≠ [] →
  output σ tpl (l1 ++ p :: l2) = output σ tpl (l1 ++ l2).
Proof.
  intros Hv Hp Hne. rewrite getProfiles_elem in Hp.
  assert (p ≠ defaultProfileName) as Hd by tauto.
  assert (filter (λ sl, profile sl = p) l = []) as Hnone.
  { apply filter_none. intros sl Hsl Hprof.
    apply Hp. right. by exists sl. }
  rewrite !(output_applied _ _ l) by (done || by destruct l1).
  apply (f_equal (λ x, Some (header +:+ render (lastWrites x)))).
  unfold effective_order, normalize.
  destruct l1 as [|q l1]; rewrite ?app_nil_l, <- ?app_comm_cons.
  - rewrite bool_decide_false by done.
    transitivity (applied l (defaultProfileName :: l2));
      [apply (applied_remove_absent [defaultProfileName] l p l2 Hnone)|].
    destruct l2 as [|r l2]; [done|]. simpl app.
    case_bool_decide as Hr; [|done]. subst r.
    apply (applied_twice [] l defaultProfileName l2).
  - case_bool_decide as Hq.
    + by apply (applied_remove_absent (defaultProfileName :: l1)).
    + by apply (applied_remove_absent (defaultProfileName :: q :: l1)).
Qed.

Lemma unlisted_profile_ignored_witness :
  output (store_of three_profiles) (whole three_profiles)
    (["a"] ++ "bat" :: ["b"])
  = output (store_of three_profiles) (whole three_profiles) (["a"] ++ ["b"]).
Proof.
  apply (unlisted_profile_ignored (store_of three_profiles)
           (whole three_profiles) three_profiles ["a"] "bat" ["b"]).
  - reflexivity.
  - intros H%(bool_decide_pack _). vm_compute in H. exact H.
  - discriminate.
Defined.

Lemma applied_filter order : ∀ l,
  applied l order = applied (filter (λ sl, profile sl ∈ order) l) order.
Proof.
  induction order as [|p ps IH]; intros l; [done|].
  rewrite !applied_cons. f_equal.
  - f_equal. rewrite list_filter_filter. apply list_filter_iff.
    intros x. split; [|tauto]. intros Hx. split; [done|]. rewrite Hx. left.
  - rewrite (IH (filter (λ sl, profile sl ≠ p) l)).
    rewrite (IH (filter (λ sl, profile sl ≠ p) (filter _ l))).
    f_equal. rewrite !list_filter_filter. apply list_filter_iff.
    intros x. rewrite elem_of_cons. tauto.
Qed.

(** X6.  The text depends on the records of the profiles in the effective order
    only: two templates with the same such records, in the same order,
    give the same text. *)
Theorem unselected_records_ignored σ1 tpl1 l1 σ2 tpl2 l2 selected :
  slice_view σ1 tpl1 = Some l1 → slice_view σ2 tpl2 = Some l2 →
  selected ≠ [] →
  filter (λ sl, profile sl ∈ effective_order selected) l1
  = filter (λ sl, profile sl ∈ effective_order selected) l2 →
  output σ1 tpl1 selected = output σ2 tpl2 selected.
Proof.
  intros Hv1 Hv2 Hsel Heq.
  rewrite (output_applied _ _ l1), (output_applied _ _ l2) by done.
  by rewrite (applied_filter _ l1), (applied_filter _ l2), Heq.
Qed.

Lemma unselected_records_ignored_witness :
  output (store_of three_profiles) (whole three_profiles) ["a"]
  = output (store_of [SectionLine "a" (KV "K" "1")])
      (whole [SectionLine "a" (KV "K" "1")]) ["a"].
Proof.
  apply (unselected_records_ignored
           (store_of three_profiles) (whole three_profiles) three_profiles
           (store_of [SectionLine "a" (KV "K" "1")])
           (whole [SectionLine "a" (KV "K" "1")])
           [SectionLine "a" (KV "K" "1")] ["a"]);
    [reflexivity | reflexivity | discriminate | vm_compute; reflexivity].
Defined.

Lemma applied_blocks order : ∀ l,
  NoDup order →
  applied l order
  = mjoin ((λ p, setting <$> filter (λ sl, profile sl = p) l) <$> order).
Proof.
  induction order as [|p ps IH]; intros l Hnd; [done|].
  apply NoDup_cons in Hnd as [Hp Hnd].
  rewrite applied_cons, fmap_cons. simpl mjoin. f_equal.
  rewrite IH by done. f_equal. apply Forall_fmap_ext_1, Forall_forall.
  intros q Hq. f_equal. rewrite list_filter_filter. apply list_filter_iff.
  intros x. split; [tauto|]. intros Hx. split; [done|].
  rewrite Hx. by intros ->.
Qed.

Lemma applied_Permutation order : ∀ l,
  applied l order ≡ₚ setting <$> filter (λ sl, profile sl ∈ order) l.
Proof.
  induction order as [|p ps IH]; intros l.
  - simpl. rewrite (filter_none _ l); [done|].
    intros ? _. apply not_elem_of_nil.
  - rewrite applied_cons, IH, list_filter_filter, <- fmap_app.
    apply fmap_Permutation.
    induction l as [|x l IHl]; [done|].
    destruct (decide (profile x = p)) as [Hx|Hx].
    + rewrite (filter_cons_True (λ sl, profile sl = p)) by done.
      rewrite (filter_cons_False (λ sl, _ ∧ _)) by tauto.
      rewrite (filter_cons_True (λ sl, profile sl ∈ p :: ps))
        by (rewrite Hx; left).
      simpl. by rewrite IHl.
    + rewrite (filter_cons_False (λ sl, profile sl = p)) by done.
      destruct (decide (profile x ∈ ps)) as [Hps|Hps].
      * rewrite (filter_cons_True (λ sl, _ ∧ _)) by tauto.
        rewrite (filter_cons_True (λ sl, profile sl ∈ p :: ps)) by by right.
        rewrite <- Permutation_middle. by rewrite IHl.
      * rewrite (filter_cons_False (λ sl, _ ∧ _)) by tauto.
        rewrite (filter_cons_False (λ sl, profile sl ∈ p :: ps)); [done|].
        rewrite elem_of_cons. tauto.
Qed.

(** X7.  When the profiles of the effective order are distinct and no two of
    their records have the same key, nothing is superseded: the text holds
    every setting of the default profile in template order, then every
    setting of each selected profile in the order of the selection. *)
Theorem distinct_keys_all_printed σ tpl l selected :
  slice_view σ tpl = Some l → selected ≠ [] →
  NoDup (effective_order selected) →
  NoDup ((λ sl, key (setting sl))
           <$> filter (λ sl, profile sl ∈ effective_order selected) l) →
  output σ tpl selected
  = Some (header +:+
          render (mjoin ((λ p, setting <$> filter (λ sl, profile sl = p) l)
                           <$> effective_order selected))).
Proof.
  intros Hv Hsel Horder Hkeys. rewrite (output_applied _ _ l) by done.
  rewrite lastWrites_distinct.
  - by rewrite applied_blocks.
  - rewrite applied_Permutation, <- list_fmap_compose. done.
Qed.

Lemma distinct_keys_all_printed_witness :
  output (store_of four_profiles) (whole four_profiles) ["ac"; "bat"]
  = Some (header +:+
          render (mjoin ((λ p, setting <$> filter (λ sl, profile sl = p)
                                             four_profiles)
                           <$> effective_order ["ac"; "bat"])))
  ∧ mjoin ((λ p, setting <$> filter (λ sl, profile sl = p) four_profiles)
             <$> effective_order ["ac"; "bat"])
    = [KV "A" "1"; KV "C" "3"; KV "B" "2"; KV "D" "4"]
  ∧ output (store_of four_profiles) (whole four_profiles) ["ac"; "bat"]
    = Some (header +:+ "A=1" +:+ nl +:+ "C=3" +:+ nl +:+ "B=2" +:+ nl
            +:+ "D=4" +:+ nl).
Proof.
  assert (output (store_of four_profiles) (whole four_profiles) ["ac"; "bat"]
          = Some (header +:+
                  render (mjoin ((λ p, setting <$> filter (λ sl, profile sl = p)
                                                     four_profiles)
                                   <$> effective_order ["ac"; "bat"]))))
    as Hout.
  { apply (distinct_keys_all_printed (store_of four_profiles)
             (whole four_profiles) four_profiles ["ac"; "bat"]);
      [reflexivity | discriminate | | ];
      apply (bool_decide_unpack _); vm_compute; exact I. }
  split; [exact Hout|]. split; [vm_compute; reflexivity|].
  rewrite Hout. vm_compute. reflexivity.
Defined.

(** ** The command line *)

Lemma lastIndexFrom_greatest (s : list string) v (i : nat) : ∀ j,
  lastIndexFrom s v i = Some (Z.of_nat j) →
  ∀ j', (j < j' ≤ i)%nat → s !! j' ≠ Some v.
Proof.
  induction i as [|i IH]; intros j Hr j' Hj'; [lia|].
  simpl in Hr. destruct (s !! S i) as [x|] eqn:Hx; [|done].
  case_bool_decide as Hv.
  - injection Hr as Hr. lia.
  - destruct (decide (j' = S i)) as [->|]; [rewrite Hx; congruence|].
    apply (IH j Hr). lia.
Qed.

(** X8.  [lastIndex] panics on an empty slice.  On any other slice it returns
    the greatest index from 1 on that holds the value, or -1 when no such
    index does: it never returns 0, and a value that stands at index 0
    only is reported as absent. *)
Theorem lastIndex_skips_first (s : list string) v :
  (s = [] → lastIndex s v = None)
  ∧ (s ≠ [] →
     ∃ r, lastIndex s v = Some r
          ∧ ((r = -1 ∧ ∀ j, (1 ≤ j)%nat → s !! j ≠ Some v)
             ∨ (∃ j, (1 ≤ j)%nat ∧ r = Z.of_nat j ∧ s !! j = Some v
                     ∧ ∀ j', (j < j')%nat → s !! j' ≠ Some v))).
Proof.
  split; [by intros ->|]. intros Hs.
  destruct (lastIndex_spec s v Hs) as [[Hr Hnone]|(j & Hj & Hsj & Hr)].
  - exists (-1). split; [done|]. by left.
  - exists (Z.of_nat j). split; [done|]. right. exists j.
    repeat split; [done..|]. intros j' Hj'.
    destruct (decide (j' < length s)%nat) as [Hlt|Hge].
    + unfold lastIndex in Hr.
      assert (0 < length s)%nat by (destruct s; simpl; [done|lia]).
      rewrite bool_decide_false in Hr by lia.
      apply (lastIndexFrom_greatest s v _ j Hr). lia.
    + rewrite lookup_ge_None_2 by lia. done.
Qed.

Lemma lastIndex_skips_first_witness :
  ∃ r, lastIndex ["default"; "bat"] "default" = Some r
       ∧ ((r = -1 ∧ ∀ j, (1 ≤ j)%nat
                         → ["default"; "bat"] !! j ≠ Some "default")
          ∨ (∃ j, (1 ≤ j)%nat ∧ r = Z.of_nat j
                  ∧ ["default"; "bat"] !! j = Some "default"
                  ∧ ∀ j', (j < j')%nat
                          → ["default"; "bat"] !! j' ≠ Some "default")).
Proof.
  apply (proj2 (lastIndex_skips_first ["default"; "bat"] "default")).
  discriminate.
Defined.

Lemma parseInput_Selected args sel :
  parseInput args = Selected sel → args = "use" :: sel.
Proof.
  unfold parseInput. destruct args as [|first rest]; [done|].
  destruct (flag.Parse (first :: rest) false false) as [h hs|]; [|done].
  destruct (h || hs); [done|].
  case_bool_decide; [done|]. case_bool_decide as Huse; [done|].
  subst first.
  case_bool_decide; [done|]. case_bool_decide.
  - destruct (lastIndex rest defaultProfileName); [|done].
    case_bool_decide; [done|]. by intros [= ->].
  - by intros [= ->].
Qed.

Lemma parseInput_no_panic args : parseInput args ≠ Panicked.
Proof.
  unfold parseInput. destruct args as [|first rest]; [done|].
  destruct (flag.Parse (first :: rest) false false) as [h hs|]; [|done].
  destruct (h || hs); [done|].
  case_bool_decide; [done|]. case_bool_decide; [done|].
  case_bool_decide as Hlen; [done|]. case_bool_decide; [|done].
  assert (rest ≠ []) as Hne by (by intros ->).
  destruct (lastIndex_spec rest defaultProfileName Hne)
    as [[-> _]|(j & _ & _ & ->)]; by case_bool_decide.
Qed.

Lemma parseInput_Selected_iff args sel :
  parseInput args = Selected sel
  ↔ args = "use" :: sel ∧ sel ≠ []
    ∧ ∀ i, sel !! i = Some defaultProfileName → i = 0%nat.
Proof.
  split.
  - intros Hsel. pose proof (parseInput_Selected _ _ Hsel) as ->.
    split; [done|]. by apply valid_selection_iff.
  - intros (-> & Hne & Hd). by apply valid_selection_iff.
Qed.

(** X9.  [parseInput] never panics, although [lastIndex] would on an empty
    slice.  It returns a selection exactly for the arguments [use] followed
    by one or more profile names with "default" at most in the first
    place, and the selection is those names; [fillConfig], which panics on
    an empty selection, returns on every selection it is handed. *)
Theorem accepted_selection (args : list string) :
  parseInput args ≠ Panicked
  ∧ (∀ sel,
       parseInput args = Selected sel
       ↔ args = "use" :: sel ∧ sel ≠ []
         ∧ ∀ i, sel !! i = Some defaultProfileName → i = 0%nat)
  ∧ (∀ tpl σ, fillConfig tpl [] σ = None)
  ∧ (∀ sel σ tpl l,
       parseInput args = Selected sel → slice_view σ tpl = Some l →
       is_Some (fillConfig tpl sel σ)).
Proof.
  split; [apply parseInput_no_panic|].
  split; [apply parseInput_Selected_iff|]. split; [done|].
  intros sel σ tpl l Hsel Hv.
  apply parseInput_Selected_iff in Hsel as (_ & Hne & _).
  destruct (fillConfig_spec _ _ _ _ Hv Hne) as (arr & ->). by eexists.
Qed.

Lemma accepted_selection_witness :
  is_Some (fillConfig (whole scenario) ["bat"] (store_of scenario)).
Proof.
  apply (proj2 (proj2 (proj2 (accepted_selection ["use"; "bat"])))
           ["bat"] (store_of scenario) (whole scenario) scenario);
    reflexivity.
Defined.

Lemma EarlierInput_Selected args sel :
  EarlierInput.parseInput args = EarlierInput.Selected sel
  ↔ args = "use" :: sel ∧ sel ≠ []
    ∧ ∀ i, sel !! i = Some defaultProfileName → i = 0%nat.
Proof.
  unfold EarlierInput.parseInput. split.
  - destruct args as [|first rest]; [done|].
    case_bool_decide; [done|]. case_bool_decide as Huse; [done|].
    subst first.
    case_bool_decide as Hlen; [done|].
    assert (rest ≠ []) as Hne by (by intros ->).
    rewrite bool_decide_true by (destruct rest; simpl; [done|lia]).
    destruct (lastIndex_spec rest defaultProfileName Hne)
      as [[-> Hnone]|(j & Hj & _ & ->)].
    + rewrite bool_decide_false by lia. intros [= <-].
      split; [done|]. split; [done|]. intros [|i] Hi; [done|].
      by destruct (Hnone (S i)); [lia|].
    + by rewrite bool_decide_true by lia.
  - intros (-> & Hne & Hd).
    rewrite bool_decide_false by done.
    rewrite (bool_decide_false ("use" ≠ "use")) by (by intros ?).
    rewrite bool_decide_false by (by destruct sel).
    rewrite bool_decide_true by (destruct sel; simpl; [done|lia]).
    destruct (lastIndex_spec sel defaultProfileName Hne)
      as [[-> Hnone]|(j & Hj & Hsj & ->)].
    + by rewrite bool_decide_false by lia.
    + apply Hd in Hsj. lia.
Qed.

(** X10.  The two variants of [parseInput] hand the same selections to the
    merger: one returns a selection for some arguments exactly when the
    other does, and it is the same selection. *)
Theorem parseInput_variants_agree (args sel : list string) :
  EarlierInput.parseInput args = EarlierInput.Selected sel
  ↔ parseInput args = Selected sel.
Proof.
  by rewrite EarlierInput_Selected, parseInput_Selected_iff.
Qed.

(** ** The whole run *)

Lemma run_fillConfig (lines : list sectionLine) sel :
  sel ≠ [] →
  ∃ σ', (do template <- alloc lines ; fillConfig template sel) ∅
        = Some (header +:+ render (resolved lines sel), σ').
Proof.
  intros Hsel. unfold bind at 1, alloc.
  set (t := {| base := fresh (dom (∅ : store)); off := 0;
               len := length lines; cap := length lines |}).
  assert (slice_view (<[fresh (dom (∅ : store)) := lines]> ∅) t = Some lines)
    as Hv.
  { unfold slice_view. simpl. rewrite lookup_insert_eq.
    rewrite bool_decide_true by lia. by rewrite drop_0, firstn_all. }
  destruct (fillConfig_spec _ _ _ _ Hv Hsel) as (arr & ->). by eexists.
Qed.

Lemma parseInput_CreateTemplate args :
  parseInput args = CreateTemplate ↔ ∃ rest, args = "template" :: rest.
Proof.
  split.
  - unfold parseInput. destruct args as [|first rest]; [done|].
    destruct (flag.Parse (first :: rest) false false) as [h hs|]; [|done].
    destruct (h || hs); [done|].
    case_bool_decide as Ht; [intros _; subst first; by exists rest|].
    case_bool_decide; [done|]. case_bool_decide; [done|].
    case_bool_decide; [|done].
    destruct (lastIndex rest defaultProfileName); [|done].
    by case_bool_decide.
  - by intros (rest & ->).
Qed.

(** X11.  A run writes to [os.Stdout] exactly when its arguments are [use] and a
    valid selection and the template file parses; it then writes the merged
    configuration followed by a newline and leaves the file system as it
    is.  In every other run nothing is written there, and no run
    panics. *)
Theorem main_prints (args : list string) (fs : filesystem) :
  (main args fs).1 ≠ Panics
  ∧ (∀ out fs',
       main args fs = (Printed out, fs')
       ↔ ∃ sel tpl,
           args = "use" :: sel ∧ sel ≠ []
           ∧ (∀ i, sel !! i = Some defaultProfileName → i = 0%nat)
           ∧ parseTemplate (templateFile fs) = inr tpl
           ∧ out = (header +:+ render (resolved tpl sel)) +:+ nl
           ∧ fs' = fs).
Proof.
  unfold main. destruct (parseInput args) as [sel|e|c| |] eqn:Hin.
  - apply parseInput_Selected_iff in Hin as (-> & Hne & Hd).
    destruct (parseTemplate (templateFile fs)) as [e|tpl] eqn:Htpl.
    + split; [done|]. intros out fs'. split; [done|].
      by intros (? & ? & ? & ? & ? & ? & ? & ?).
    + destruct (run_fillConfig tpl sel Hne) as (σ' & ->).
      split; [done|]. intros out fs'. split.
      * intros [= <- <-]. by exists sel, tpl.
      * intros (sel' & tpl' & [= <-] & _ & _ & [= <-] & -> & ->). done.
  - split; [done|]. intros out fs'. split; [done|].
    intros (sel & tpl & -> & Hne & Hd & _).
    assert (parseInput ("use" :: sel) = Selected sel) as Hsel
      by (by apply parseInput_Selected_iff).
    congruence.
  - split; [done|]. intros out fs'. split; [done|].
    intros (sel & tpl & -> & Hne & Hd & _).
    assert (parseInput ("use" :: sel) = Selected sel) as Hsel
      by (by apply parseInput_Selected_iff).
    congruence.
  - split; [by destruct (createTemplateFile fs) as [? [?|]]|].
    intros out fs'. split; [by destruct (createTemplateFile fs) as [? [?|]]|].
    intros (sel & tpl & -> & _).
    by apply parseInput_CreateTemplate in Hin as (rest & ?).
  - by apply parseInput_no_panic in Hin.
Qed.

Lemma main_prints_witness :
  main ["use"; "bat"] (FileSystem (FileContent scenario_text) false)
  = (Printed ((header +:+ render (resolved scenario ["bat"])) +:+ nl),
     FileSystem (FileContent scenario_text) false).
Proof.
  apply (proj2 (main_prints ["use"; "bat"]
                  (FileSystem (FileContent scenario_text) false))).
  exists ["bat"], scenario. split; [reflexivity|]. split; [discriminate|].
  split; [|split; [vm_compute; reflexivity|split; reflexivity]].
  intros [|[|i]] H; [reflexivity|discriminate H|discriminate H].
Defined.

(** X12.  A run changes the template file in one case only: the command is
    [template], there is no such file and one can be created; the file
    then holds the constant [template] and the status is 0.  An existing
    template file is never overwritten, whatever the arguments. *)
Theorem template_never_overwritten (args : list string) (fs : filesystem) :
  (main args fs).2 = fs
  ∨ (∃ rest, args = "template" :: rest)
    ∧ templateFile fs = FileMissing
    ∧ main args fs
      = (Exited 0, FileSystem (FileContent template) (canCreate fs)).
Proof.
  unfold main. destruct (parseInput args) as [sel|e|c| |] eqn:Hin;
    [|by left..| |by left].
  - left. destruct (parseTemplate (templateFile fs)) as [e|tpl]; [done|].
    by destruct ((do template <- alloc tpl ; fillConfig template sel) ∅)
      as [[??]|].
  - apply parseInput_CreateTemplate in Hin. unfold createTemplateFile.
    destruct fs as [[| |text] [|]]; simpl; eauto.
Qed.

Lemma applied_nil order : applied [] order = [].
Proof. induction order as [|p ps IH]; [done|]. by rewrite applied_cons. Qed.

(** X13.  The text that the [template] command writes is accepted by the parser
    and holds no setting: after the command has created the file, [use]
    with any valid selection prints the heading alone. *)
Theorem new_template_is_empty :
  parseText template = inr []
  ∧ (∀ rest sel fs,
       templateFile fs = FileMissing → canCreate fs = true →
       valid_selection sel →
       (main ("use" :: sel) (main ("template" :: rest) fs).2).1
       = Printed (header +:+ nl)).
Proof.
  assert (parseText template = inr []) as Hparse by (vm_compute; reflexivity).
  split; [done|]. intros rest sel [f c] Hf Hc Hsel. simpl in Hf, Hc. subst f c.
  change (main ("template" :: rest) (FileSystem FileMissing true)).2
    with (FileSystem (FileContent template) true).
  unfold main. rewrite Hsel. simpl parseTemplate. rewrite Hparse.
  apply valid_selection_iff in Hsel as [Hne _].
  destruct (run_fillConfig [] sel Hne) as (σ' & ->). simpl.
  unfold resolved. rewrite applied_nil. simpl. by rewrite append_nil_r.
Qed.

Lemma new_template_is_empty_witness :
  (main ("use" :: ["default"; "bat"])
     (main ("template" :: []) (FileSystem FileMissing true)).2).1
  = Printed (header +:+ nl).
Proof.
  apply (proj2 new_template_is_empty [] ["default"; "bat"]
           (FileSystem FileMissing true)); reflexivity.
Defined.

(** ** The parser on whole templates *)

Lemma keyVal_not_section line :
  is_Some (keyValRegex line) → sectionRegex line = false.
Proof.
  intros [[k v] (-> & Hk & Hw & _)%keyValRegex_iff].
  destruct k as [|c k]; [done|]. rewrite append_cons. simpl in Hw.
  apply andb_prop_elim in Hw as [Hc _].
  destruct (is_word_not_special c Hc) as (_ & ? & _).
  simpl. by rewrite bool_decide_false.
Qed.

Lemma parseLine_accepts st raw err :
  err ≠ ErrIO →
  (∀ e, parseLine st (raw, err) ≠ Fail e) ↔ well_formed_line (TrimSpace raw).
Proof.
  intros Herr. unfold parseLine, afterLine, well_formed_line.
  rewrite bool_decide_false by done.
  destruct (TrimSpace raw) as [|c rest] eqn:Hline.
  { split; [done|]. intros _ e. by case_bool_decide. }
  case_bool_decide as Hc.
  { split; [by left|]. intros _ e. by case_bool_decide. }
  destruct (sectionRegex (String c rest)) eqn:Hsec.
  - destruct (validSectionNameRegex (inner (String c rest))) eqn:Hname; simpl.
    + split; [by right; left|]. intros _ e. by case_bool_decide.
    + split; [intros H; by destruct (H _ eq_refl)|].
      intros [?|[[_ ?]|Hkv%keyVal_not_section]]; congruence.
  - destruct (keyValRegex (String c rest)) as [[k v]|] eqn:Hkv.
    + split; [by right; right|]. intros _ e. by case_bool_decide.
    + split; [intros H; by destruct (H _ eq_refl)|].
      intros [?|[[? _]|[? ?]]]; congruence.
Qed.

Lemma parseLoop_accepts rds t : ∀ st,
  Forall (λ rd, rd.2 = ErrNil) rds →
  is_Some (records (parseLoop (rds ++ [(t, ErrEOF)]) st))
  ↔ Forall (λ rd, well_formed_line (TrimSpace rd.1)) (rds ++ [(t, ErrEOF)]).
Proof.
  induction rds as [|[raw err] rds IH]; intros st Hall.
  - rewrite app_nil_l, Forall_singleton. cbn [parseLoop fst].
    rewrite <- (parseLine_accepts st t ErrEOF) by done.
    destruct (parseLine st (t, ErrEOF)) as [st'|st'|e]; simpl.
    + split; [done|]. intros _. by eexists.
    + split; [done|]. intros _. by eexists.
    + split; [by intros [? ?]|]. intros H. by destruct (H e).
  - apply Forall_cons in Hall as [Herr Hall]. simpl in Herr. subst err.
    rewrite <- app_comm_cons, Forall_cons. cbn [parseLoop fst].
    rewrite <- (parseLine_accepts st raw ErrNil) by done.
    destruct (parseLine st (raw, ErrNil)) as [st'|st'|e] eqn:Hrd.
    + rewrite (IH st' Hall). split; [|tauto]. intros ?. split; [done|done].
    + by apply parseLine_nil_goes_on in Hrd.
    + simpl. split; [by intros [? ?]|]. intros [H _]. by destruct (H e).
Qed.

(** X14.  The parser returns a template exactly for the texts in which every
    line, once stripped, is blank, a comment, a section header with a name
    of word characters, or a key=value line with a key of word characters
    and a value that is not empty. *)
Theorem parse_accepts_well_formed (text : string) :
  is_Some (records (parseText text))
  ↔ Forall (λ rd, well_formed_line (TrimSpace rd.1)) (readStrings text).
Proof.
  unfold parseText.
  destruct (readStrings_shape text) as (rds & t & Hr & _ & Hall).
  rewrite Hr. apply parseLoop_accepts.
  eapply Forall_impl; [exact Hall|]. by intros rd (body & -> & _).
Qed.


Lemma parseLine_keeps_ok st rd st' :
  validSectionNameRegex (curProfile st) = true → Forall record_ok (lines st) →
  parseLine st rd = Continue st' ∨ parseLine st rd = Break st' →
  validSectionNameRegex (curProfile st') = true ∧ Forall record_ok (lines st').
Proof.
  intros Hcur Hlines. destruct rd as [raw err]. unfold parseLine, afterLine.
  case_bool_decide; [by intros [?|?]|].
  destruct (TrimSpace raw) as [|c rest].
  { case_bool_decide; intros [?|?]; by simplify_eq. }
  case_bool_decide.
  { case_bool_decide; intros [?|?]; by simplify_eq. }
  destruct (sectionRegex (String c rest)).
  - destruct (validSectionNameRegex (inner (String c rest))) eqn:Hname; simpl;
      [|by intros [?|?]].
    case_bool_decide; intros [?|?]; by simplify_eq.
  - destruct (keyValRegex (String c rest)) as [[k v]|] eqn:Hkv;
      [|by intros [?|?]].
    apply keyValRegex_iff in Hkv as (_ & Hk & Hw & Hv & Hn).
    assert (Forall record_ok
              (lines st ++ [SectionLine (curProfile st) (KV k v)])) as Hok.
    { apply Forall_app. split; [done|]. by apply Forall_singleton. }
    case_bool_decide; intros [?|?]; by simplify_eq.
Qed.

Lemma parseLoop_keeps_ok rds : ∀ st result,
  validSectionNameRegex (curProfile st) = true → Forall record_ok (lines st) →
  parseLoop rds st = inr result → Forall record_ok result.
Proof.
  induction rds as [|rd rds IH]; intros st result Hcur Hlines; simpl.
  - by intros [= <-].
  - destruct (parseLine st rd) as [st'|st'|e] eqn:Hrd; [| |done].
    + destruct (parseLine_keeps_ok st rd st') as [? ?]; [done|done|by left|].
      by apply IH.
    + destruct (parseLine_keeps_ok st rd st') as [? ?]; [done|done|by right|].
      by intros [= <-].
Qed.

(** X15.  Every record of a template that the parser returns has as profile
    "default" or a name of one or more word characters, a key of one or
    more word characters, and a value that is not empty and holds no
    newline. *)
Theorem parsed_records_ok (text : string) (result : list sectionLine) :
  parseText text = inr result → Forall record_ok result.
Proof. by apply parseLoop_keeps_ok. Qed.

Lemma parsed_records_ok_witness : Forall record_ok scenario.
Proof. apply (parsed_records_ok scenario_text scenario). reflexivity. Defined.

Lemma readStrings_line line : ∀ rest,
  no_newline line →
  readStrings (line +:+ nl +:+ rest) = (line +:+ nl, ErrNil) :: readStrings rest.
Proof.
  induction line as [|c line IH]; intros rest Hn.
  - rewrite !append_nil_l. unfold nl at 1. rewrite append_cons, append_nil_l.
    simpl. by rewrite ?bool_decide_true.
  - simpl in Hn. apply andb_prop_elim in Hn as [Hc Hn].
    rewrite !append_cons. simpl.
    rewrite bool_decide_false by (by case_bool_decide).
    by rewrite IH.
Qed.

Lemma readStrings_joinLines ls : ∀ rest,
  Forall (λ l, no_newline l) ls →
  readStrings (joinLines ls rest)
  = ((λ l, (l +:+ nl, ErrNil)) <$> ls) ++ readStrings rest.
Proof.
  induction ls as [|l ls IH]; intros rest Hall; [done|].
  apply Forall_cons in Hall as [Hl Hall]. simpl.
  by rewrite readStrings_line, IH.
Qed.

(** The line number plays no part in what an iteration records. *)
Lemma parseLine_lineNum p n m ls rd :
  match parseLine (ParseState p n ls) rd, parseLine (ParseState p m ls) rd with
  | Continue a, Continue b | Break a, Break b =>
      curProfile a = curProfile b ∧ lines a = lines b
      ∧ lineNum a = n + 1 ∧ lineNum b = m + 1
  | Fail _, Fail _ => True
  | _, _ => False
  end.
Proof.
  destruct rd as [raw err]. unfold parseLine, afterLine. simpl.
  repeat case_match; simplify_eq; done.
Qed.

Lemma records_lineNum rds : ∀ p n m ls,
  records (parseLoop rds (ParseState p n ls))
  = records (parseLoop rds (ParseState p m ls)).
Proof.
  induction rds as [|rd rds IH]; intros p n m ls; [done|]. cbn [parseLoop].
  pose proof (parseLine_lineNum p n m ls rd) as H.
  destruct (parseLine (ParseState p n ls) rd) as [[p1 n1 l1]|[p1 n1 l1]|e1],
    (parseLine (ParseState p m ls) rd) as [[p2 n2 l2]|[p2 n2 l2]|e2];
    simpl in H; try done.
  - destruct H as (-> & -> & _). apply IH.
  - by destruct H as (-> & -> & _).
Qed.

(** X16.  A blank line or a comment changes nothing in the template that is
    parsed: the text with such a line put in after any number of whole
    lines gives the records of the text without it (or fails as it
    does). *)
Theorem skipped_lines_ignored (ls : list string) (c rest : string) :
  Forall (λ l, no_newline l) ls → no_newline c → skipped (TrimSpace c) →
  records (parseText (joinLines ls (c +:+ nl +:+ rest)))
  = records (parseText (joinLines ls rest)).
Proof.
  intros Hls Hc Hskip. unfold parseText.
  rewrite !readStrings_joinLines, readStrings_line by done.
  rewrite !parseLoop_app.
  destruct (advance _ initState) as [[p n l]|]; [|done].
  cbn [parseLoop]. unfold parseLine, afterLine. simpl.
  rewrite TrimSpace_newline. unfold skipped in Hskip.
  destruct (TrimSpace c) as [|c0 line].
  - apply records_lineNum.
  - rewrite bool_decide_true by (by apply bool_decide_unpack in Hskip).
    apply records_lineNum.
Qed.

Lemma skipped_lines_ignored_witness :
  records (parseText (joinLines ["A=1"; "[bat]"]
                        (" # note" +:+ nl +:+ "B=2")))
  = records (parseText (joinLines ["A=1"; "[bat]"] "B=2")).
Proof.
  apply (skipped_lines_ignored ["A=1"; "[bat]"] " # note" "B=2").
  - repeat constructor.
  - exact I.
  - vm_compute. exact I.
Defined.

Lemma parseLoop_inr_advance rds1 : ∀ rest st result,
  Forall (λ rd, rd.2 = ErrNil) rds1 →
  parseLoop (rds1 ++ rest) st = inr result →
  ∃ st1, advance rds1 st = Some st1 ∧ parseLoop rest st1 = inr result.
Proof.
  intros rest st result Hall. rewrite parseLoop_app.
  destruct (advance rds1 st) as [st1|] eqn:Hadv; [by eauto|].
  destruct (advance_None rds1 st Hall Hadv) as [e ->]. done.
Qed.

(** X17.  A key=value line that follows a section header, with no other section
    header in between, is recorded under the name of that header in every
    template that the parser returns. *)
Theorem section_header_tags text rds1 hdr e1 mid raw err rds2 name k v result :
  readStrings text = rds1 ++ (hdr, e1) :: mid ++ (raw, err) :: rds2 →
  TrimSpace hdr = "[" +:+ name +:+ "]" →
  (∀ r e, (r, e) ∈ mid → sectionRegex (TrimSpace r) = false) →
  TrimSpace raw = k +:+ "=" +:+ v →
  k ≠ EmptyString → all_word k → v ≠ EmptyString →
  parseText text = inr result →
  SectionLine name (KV k v) ∈ result.
Proof.
  intros Hr Hhdr Hmid Hline Hk Hw Hv Hparse. unfold parseText in Hparse.
  assert (Forall (λ rd, rd.2 = ErrNil) (rds1 ++ (hdr, e1) :: mid)) as Hnil.
  { apply (readStrings_before text _ (raw, err) rds2).
    by rewrite <- (assoc_L (++)). }
  apply Forall_app in Hnil as [Hnil1 Hnil2].
  apply Forall_cons in Hnil2 as [He1 Hnilmid]. simpl in He1. subst e1.
  destruct (readStrings_lines text hdr ErrNil) as [_ Hnh].
  { rewrite Hr, elem_of_app. right. left. }
  destruct (readStrings_lines text raw err) as [Herr Hnr].
  { rewrite Hr, elem_of_app. right. right. rewrite elem_of_app. right. left. }
  rewrite Hhdr, !no_newline_append in Hnh.
  apply andb_prop_elim in Hnh as [_ Hnh]. apply andb_prop_elim in Hnh as [Hnh _].
  rewrite Hline, !no_newline_append in Hnr.
  apply andb_prop_elim in Hnr as [_ Hnr]. apply andb_prop_elim in Hnr as [_ Hnr].
  rewrite Hr in Hparse.
  apply parseLoop_inr_advance in Hparse as (st1 & _ & Hparse); [|done].
  cbn [parseLoop] in Hparse.
  destruct (validSectionNameRegex name) eqn:Hname.
  2:{ by rewrite (parseLine_malformed_section st1 hdr ErrNil name) in Hparse. }
  assert (parseLine st1 (hdr, ErrNil)
          = Continue (ParseState name (lineNum st1 + 1) (lines st1))) as Hstep.
  { unfold parseLine, afterLine. simpl. rewrite Hhdr.
    assert (sectionRegex ("[" +:+ name +:+ "]") = true) as Hsec
      by (apply sectionRegex_iff; by exists name).
    rewrite inner_brackets, Hname. rewrite append_cons in *.
    rewrite bool_decide_false by done. by rewrite Hsec. }
  rewrite Hstep in Hparse.
  apply parseLoop_inr_advance in Hparse as (st2 & Hadv & Hparse); [|done].
  pose proof (advance_context mid _ _ Hadv Hmid) as Hcur. simpl in Hcur.
  cbn [parseLoop] in Hparse.
  rewrite (parseLine_setting st2 raw err k v) in Hparse by done.
  rewrite Hcur in Hparse. unfold afterLine in Hparse.
  assert (∃ more, result
                  = (lines st2 ++ [SectionLine name (KV k v)]) ++ more)
    as [more ->].
  { case_bool_decide.
    - injection Hparse as <-. exists []. by rewrite app_nil_r.
    - by apply parseLoop_grows in Hparse. }
  rewrite !elem_of_app, list_elem_of_singleton. auto.
Qed.

Lemma section_header_tags_witness :
  SectionLine "bat" (KV "CPU_SCALING" "power") ∈ scenario.
Proof.
  apply (section_header_tags scenario_text
           [("TLP_ENABLE=0" +:+ nl, ErrNil)] ("[bat]" +:+ nl) ErrNil
           [("TLP_ENABLE=1" +:+ nl, ErrNil)] ("CPU_SCALING=power" +:+ nl) ErrNil
           [(EmptyString, ErrEOF)] "bat" "CPU_SCALING" "power" scenario).
  - vm_compute. reflexivity.
  - vm_compute. reflexivity.
  - intros r e H. apply list_elem_of_In in H. destruct H as [H|[]].
    injection H as <- <-. vm_compute. reflexivity.
  - vm_compute. reflexivity.
  - discriminate.
  - exact I.
  - discriminate.
  - vm_compute. reflexivity.
Defined.

(** ** The earlier parser *)

Lemma Earlier_parseLine_lineNum p n m ls rd :
  match Earlier.parseLine (ParseState p n ls) rd,
        Earlier.parseLine (ParseState p m ls) rd with
  | Earlier.Continue a, Earlier.Continue b
  | Earlier.Break a, Earlier.Break b =>
      curProfile a = curProfile b ∧ lines a = lines b
  | Earlier.Exit c, Earlier.Exit d => c = d
  | _, _ => False
  end.
Proof.
  destruct rd as [raw err]. unfold Earlier.parseLine, Earlier.afterLine. simpl.
  repeat case_match; simplify_eq; done.
Qed.

Lemma Earlier_parseLoop_lineNum rds : ∀ p n m ls,
  Earlier.parseLoop rds (ParseState p n ls)
  = Earlier.parseLoop rds (ParseState p m ls).
Proof.
  induction rds as [|rd rds IH]; intros p n m ls; [done|].
  cbn [Earlier.parseLoop].
  pose proof (Earlier_parseLine_lineNum p n m ls rd) as H.
  destruct (Earlier.parseLine (ParseState p n ls) rd)
    as [[p1 n1 l1]|[p1 n1 l1]|e1],
    (Earlier.parseLine (ParseState p m ls) rd)
    as [[p2 n2 l2]|[p2 n2 l2]|e2];
    simpl in H; try done.
  - destruct H as (-> & ->). apply IH.
  - by destruct H as (-> & ->).
  - by subst.
Qed.

Lemma Earlier_parseLine_no_exit st raw err c :
  err ≠ ErrIO → Earlier.parseLine st (raw, err) ≠ Earlier.Exit c.
Proof.
  intros Herr. unfold Earlier.parseLine, Earlier.afterLine.
  rewrite bool_decide_false by done. by repeat case_match.
Qed.

Lemma Earlier_parseLoop_total rds : ∀ st,
  Forall (λ rd, rd.2 ≠ ErrIO) rds → ∃ r, Earlier.parseLoop rds st = inr r.
Proof.
  induction rds as [|[raw err] rds IH]; intros st Hall.
  - by exists (lines st).
  - apply Forall_cons in Hall as [Herr Hall]. simpl in Herr.
    cbn [Earlier.parseLoop].
    destruct (Earlier.parseLine st (raw, err)) as [st'|st'|c] eqn:Hrd.
    + by apply IH.
    + by exists (lines st').
    + by apply Earlier_parseLine_no_exit in Hrd.
Qed.

Lemma Earlier_parseLoop_skip rds x rest : ∀ st,
  (∀ st, Earlier.parseLine st x
         = Earlier.Continue
             (ParseState (curProfile st) (lineNum st + 1) (lines st))) →
  Earlier.parseLoop (rds ++ x :: rest) st = Earlier.parseLoop (rds ++ rest) st.
Proof.
  intros st Hx. revert st. induction rds as [|rd rds IH]; intros st.
  - rewrite !app_nil_l. cbn [Earlier.parseLoop]. rewrite Hx.
    destruct st as [p n l]. apply Earlier_parseLoop_lineNum.
  - rewrite <- !app_comm_cons. cbn [Earlier.parseLoop].
    destruct (Earlier.parseLine st rd); [apply IH|done..].
Qed.

(** X18.  The earlier parser refuses no template text: it returns a template for
    every text that is read without error.  A line that is neither blank
    nor a comment and matches neither of its patterns is skipped: the
    template is the one of the text without that line. *)
Theorem earlier_parser_lenient :
  (∀ text, ∃ result, Earlier.parseText text = inr result)
  ∧ (∀ (ls : list string) (c rest : string),
       Forall (λ l, no_newline l) ls → no_newline c →
       skipped (TrimSpace c) = false →
       Earlier.sectionRegex (TrimSpace c) = false →
       Earlier.keyValRegex (TrimSpace c) = None →
       Earlier.parseText (joinLines ls (c +:+ nl +:+ rest))
       = Earlier.parseText (joinLines ls rest)).
Proof.
  split.
  - intros text. apply Earlier_parseLoop_total, Forall_forall.
    intros [raw err] Hin. by apply (readStrings_lines text raw err).
  - intros ls c rest Hls Hc Hskip Hsec Hkv. unfold Earlier.parseText.
    rewrite !readStrings_joinLines, readStrings_line by done.
    apply Earlier_parseLoop_skip. intros st.
    unfold Earlier.parseLine. simpl. rewrite TrimSpace_newline.
    unfold skipped in Hskip. destruct (TrimSpace c) as [|c0 line]; [done|].
    by rewrite Hskip, Hsec, Hkv.
Qed.

Lemma earlier_parser_lenient_witness :
  Earlier.parseText (joinLines ["A=1"] ("not a setting" +:+ nl +:+ "B=2"))
  = Earlier.parseText (joinLines ["A=1"] "B=2").
Proof.
  apply (proj2 earlier_parser_lenient ["A=1"] "not a setting" "B=2").
  - repeat constructor.
  - exact I.
  - vm_compute. reflexivity.
  - vm_compute. reflexivity.
  - vm_compute. reflexivity.
Defined.

(** X19.  On a well-formed template in which no key=value line ends with a word
    between brackets (which the section pattern of the earlier parser
    would match), the two parsers return the same template. *)
Theorem parsers_agree_on_text (text : string) :
  Forall (λ rd, well_formed_line (TrimSpace rd.1)
                ∧ (is_Some (keyValRegex (TrimSpace rd.1)) →
                   Earlier.sectionRegex (TrimSpace rd.1) = false))
    (readStrings text) →
  ∃ result, parseText text = inr result ∧ Earlier.parseText text = inr result.
Proof.
  intros Hall. apply parsers_agree, Forall_forall. intros [raw err] Hin.
  rewrite Forall_forall in Hall. destruct (Hall _ Hin) as [Hwf Hkv].
  split; [|done]. by apply (readStrings_lines text raw err).
Qed.

Lemma parsers_agree_on_text_witness :
  ∃ result, parseText scenario_text = inr result
            ∧ Earlier.parseText scenario_text = inr result.
Proof.
  apply (parsers_agree_on_text scenario_text).
  assert (readStrings scenario_text
          = [("TLP_ENABLE=0" +:+ nl, ErrNil); ("[bat]" +:+ nl, ErrNil);
             ("TLP_ENABLE=1" +:+ nl, ErrNil);
             ("CPU_SCALING=power" +:+ nl, ErrNil); (EmptyString, ErrEOF)])
    as -> by (vm_compute; reflexivity).
  assert (∀ k v, is_Some (Some (k, v) : option (string * string))) as Hsome
    by (intros; by eexists).
  repeat apply Forall_cons_2; [| | | | |apply Forall_nil_2].
  - split; [right; right; vm_compute keyValRegex; apply Hsome|].
    intros _. vm_compute. reflexivity.
  - split; [right; left; vm_compute; auto|].
    intros [? H]. vm_compute in H. discriminate H.
  - split; [right; right; vm_compute keyValRegex; apply Hsome|].
    intros _. vm_compute. reflexivity.
  - split; [right; right; vm_compute keyValRegex; apply Hsome|].
    intros _. vm_compute. reflexivity.
  - split; [exact I|]. intros _. vm_compute. reflexivity.
Defined.

(** ** The printed text as a template *)

Lemma rev_app_rev s : ∀ t, String.rev_app s t = String.rev s +:+ t.
Proof.
  unfold String.rev. induction s as [|c s IH]; intros t; [done|].
  simpl. rewrite IH, (IH (String c EmptyString)).
  by rewrite append_assoc.
Qed.

Lemma rev_append s t : String.rev (s +:+ t) = String.rev t +:+ String.rev s.
Proof.
  unfold String.rev at 1. rewrite rev_app_append, rev_app_rev.
  done.
Qed.

Lemma rev_cons c s :
  String.rev (String c s) = String.rev s +:+ String c EmptyString.
Proof. unfold String.rev at 1. simpl. apply rev_app_rev. Qed.

Lemma rev_involutive s : String.rev (String.rev s) = s.
Proof.
  induction s as [|c s IH]; [done|].
  by rewrite rev_cons, rev_append, IH.
Qed.

Lemma trimLeftRev_idem r : trimLeftRev (trimLeftRev r) = trimLeftRev r.
Proof.
  induction r as [r IH] using string_length_ind.
  destruct r as [|c1 [|c2 [|c3 r3]]]; [done|..]; simpl.
  - destruct (space1 c1) eqn:H1; [done|]. simpl. by rewrite H1.
  - destruct (space1 c1) eqn:H1.
    { apply (IH (String c2 EmptyString)). simpl. lia. }
    destruct (space2 c2 c1) eqn:H2; [done|]. simpl. by rewrite H1, H2.
  - destruct (space1 c1) eqn:H1.
    { apply (IH (String c2 (String c3 r3))). simpl. lia. }
    destruct (space2 c2 c1) eqn:H2.
    { apply (IH (String c3 r3)). simpl. lia. }
    destruct (space3 c3 c2 c1) eqn:H3.
    { apply (IH r3). simpl. lia. }
    simpl. by rewrite H1, H2, H3.
Qed.

Lemma trimRight_TrimSpace s : trimRight (TrimSpace s) = TrimSpace s.
Proof.
  unfold TrimSpace, trimRight. by rewrite rev_involutive, trimLeftRev_idem.
Qed.

Lemma trimLeftRev_length r :
  (String.length (trimLeftRev r) ≤ String.length r)%nat.
Proof.
  induction r as [r IH] using string_length_ind.
  destruct r as [|c1 [|c2 [|c3 r3]]]; [done|..]; simpl.
  - destruct (space1 c1); simpl; lia.
  - destruct (space1 c1).
    { pose proof (IH (String c2 EmptyString)). simpl in *. lia. }
    destruct (space2 c2 c1); simpl; lia.
  - destruct (space1 c1).
    { pose proof (IH (String c2 (String c3 r3))). simpl in *. lia. }
    destruct (space2 c2 c1).
    { pose proof (IH (String c3 r3)). simpl in *. lia. }
    destruct (space3 c3 c2 c1); [|simpl; lia].
    pose proof (IH r3). simpl in *. lia.
Qed.

(** A reversed string that is not empty and keeps all of itself, with
    something after it, keeps all of itself alone. *)
Lemma trimLeftRev_front w t :
  w ≠ EmptyString → trimLeftRev (w +:+ t) = w +:+ t → trimLeftRev w = w.
Proof.
  intros Hw Hfix.
  assert (∀ r, (String.length (trimLeftRev r) < S (String.length r))%nat) as Hlt
    by (intros r; pose proof (trimLeftRev_length r); lia).
  destruct w as [|c1 [|c2 [|c3 w3]]]; [done|..];
    rewrite ?append_cons, ?append_nil_l in Hfix; simpl in *.
  - destruct (space1 c1) eqn:H1; [|done].
    apply (f_equal String.length) in Hfix. simpl in Hfix.
    pose proof (Hlt t). lia.
  - destruct (space1 c1) eqn:H1.
    { apply (f_equal String.length) in Hfix. simpl in Hfix.
      pose proof (Hlt (String c2 t)). simpl in *. lia. }
    destruct (space2 c2 c1) eqn:H2; [|done].
    apply (f_equal String.length) in Hfix. simpl in Hfix.
    pose proof (trimLeftRev_length t). lia.
  - destruct (space1 c1) eqn:H1.
    { apply (f_equal String.length) in Hfix. simpl in Hfix.
      pose proof (Hlt (String c2 (String c3 (w3 +:+ t)))). simpl in *. lia. }
    destruct (space2 c2 c1) eqn:H2.
    { apply (f_equal String.length) in Hfix. simpl in Hfix.
      pose proof (Hlt (String c3 (w3 +:+ t))). simpl in *. lia. }
    destruct (space3 c3 c2 c1) eqn:H3; [|done].
    apply (f_equal String.length) in Hfix. simpl in Hfix.
    pose proof (trimLeftRev_length (w3 +:+ t)). lia.
Qed.

Lemma space_after_equals c d :
  space2 "="%char c = false ∧ space3 "="%char c d = false
  ∧ space3 c "="%char d = false.
Proof.
  unfold space2, space3. change (byte "="%char) with 61. simpl.
  by rewrite !andb_false_r.
Qed.

(** Conversely, it keeps all of itself before an equals sign. *)
Lemma trimLeftRev_before_equals w t :
  w ≠ EmptyString → trimLeftRev w = w →
  trimLeftRev (w +:+ "=" +:+ t) = w +:+ "=" +:+ t.
Proof.
  intros Hw Hfix.
  assert (∀ r, (String.length (trimLeftRev r) < S (String.length r))%nat) as Hlt
    by (intros r; pose proof (trimLeftRev_length r); lia).
  destruct w as [|c1 [|c2 [|c3 w3]]]; [done|..];
    repeat (rewrite append_cons || rewrite append_nil_l); simpl in *.
  - destruct (space1 c1) eqn:H1; [done|].
    destruct t as [|d t]; [done|].
    by rewrite (proj2 (proj2 (space_after_equals d c1))).
  - destruct (space1 c1) eqn:H1.
    { apply (f_equal String.length) in Hfix. simpl in Hfix.
      pose proof (Hlt (String c2 EmptyString)). simpl in *. lia. }
    destruct (space2 c2 c1) eqn:H2; [done|].
    by rewrite ?(proj1 (proj2 (space_after_equals c2 c1))).
  - destruct (space1 c1) eqn:H1.
    { apply (f_equal String.length) in Hfix. simpl in Hfix.
      pose proof (Hlt (String c2 (String c3 w3))). simpl in *. lia. }
    destruct (space2 c2 c1) eqn:H2.
    { apply (f_equal String.length) in Hfix. simpl in Hfix.
      pose proof (Hlt (String c3 w3)). simpl in *. lia. }
    destruct (space3 c3 c2 c1) eqn:H3; [|done].
    apply (f_equal String.length) in Hfix. simpl in Hfix.
    pose proof (trimLeftRev_length w3). lia.
Qed.

Lemma rev_nonempty s : s ≠ EmptyString → String.rev s ≠ EmptyString.
Proof.
  destruct s as [|c s]; [done|]. intros _. rewrite rev_cons.
  by destruct (String.rev s).
Qed.

(** The value of a stripped key=value line has no white space at its
    end, and a line made of a key, an equals sign and such a value has
    none at its end either. *)
Lemma trimRight_value k v :
  v ≠ EmptyString →
  trimRight (k +:+ "=" +:+ v) = k +:+ "=" +:+ v ↔ trimRight v = v.
Proof.
  intros Hv. unfold trimRight.
  assert (String.rev (k +:+ "=" +:+ v)
          = String.rev v +:+ "=" +:+ String.rev k) as Hrev.
  { rewrite !rev_append, append_assoc. done. }
  rewrite Hrev. split; intros H.
  - apply (f_equal String.rev) in H. rewrite rev_involutive, Hrev in H.
    apply trimLeftRev_front in H; [|by apply rev_nonempty].
    by rewrite H, rev_involutive.
  - apply (f_equal String.rev) in H. rewrite rev_involutive in H.
    rewrite trimLeftRev_before_equals by (done || by apply rev_nonempty).
    by rewrite <- Hrev, rev_involutive.
Qed.

Lemma word_not_space c :
  is_word c →
  space1 c = false ∧ (∀ d, space2 c d = false) ∧ (∀ d e, space3 c d e = false).
Proof.
  destruct c as [[] [] [] [] [] [] [] []]; intros Hw; try done;
    (split; [done|split; [intros d|intros d e]]);
    unfold space2, space3; simpl; by rewrite ?andb_false_r.
Qed.

Lemma trimLeft_word c s : is_word c → trimLeft (String c s) = String c s.
Proof.
  intros (H1 & H2 & H3)%word_not_space. simpl. rewrite H1.
  destruct s as [|d [|e s]]; [done|by rewrite H2|by rewrite H2, H3].
Qed.

Lemma all_word_no_newline k : all_word k → no_newline k.
Proof.
  induction k as [|c k IH]; [done|]. simpl.
  intros [Hc Hk]%andb_prop_elim. apply andb_prop_intro. split; [|auto].
  case_bool_decide; [by subst c|done].
Qed.

(** A printed line is read back as it was written. *)
Lemma TrimSpace_setting_line k v :
  k ≠ EmptyString → all_word k → v ≠ EmptyString → trimRight v = v →
  TrimSpace ((k +:+ "=" +:+ v) +:+ nl) = k +:+ "=" +:+ v.
Proof.
  intros Hk Hw Hv Hfix. rewrite TrimSpace_newline. unfold TrimSpace.
  destruct k as [|c k]; [done|]. rewrite append_cons.
  simpl in Hw. apply andb_prop_elim in Hw as [Hc _].
  rewrite trimLeft_word by done. rewrite <- append_cons.
  by apply trimRight_value.
Qed.

Lemma parseLine_lines st raw err st' :
  parseLine st (raw, err) = Continue st' ∨ parseLine st (raw, err) = Break st' →
  lines st' = lines st
  ∨ ∃ k v, keyValRegex (TrimSpace raw) = Some (k, v)
           ∧ lines st' = lines st ++ [SectionLine (curProfile st) (KV k v)].
Proof.
  unfold parseLine, afterLine.
  case_bool_decide; [by intros [?|?]|].
  destruct (TrimSpace raw) as [|c rest].
  { case_bool_decide; intros [?|?]; simplify_eq; by left. }
  case_bool_decide.
  { case_bool_decide; intros [?|?]; simplify_eq; by left. }
  destruct (sectionRegex (String c rest)).
  - destruct (validSectionNameRegex (inner (String c rest))); simpl;
      [|by intros [?|?]].
    case_bool_decide; intros [?|?]; simplify_eq; by left.
  - destruct (keyValRegex (String c rest)) as [[k v]|]; [|by intros [?|?]].
    case_bool_decide; intros [?|?]; simplify_eq; right; by exists k, v.
Qed.

Lemma parseLine_stripped st raw err st' :
  Forall (λ sl, trimRight (value (setting sl)) = value (setting sl)) (lines st) →
  parseLine st (raw, err) = Continue st' ∨ parseLine st (raw, err) = Break st' →
  Forall (λ sl, trimRight (value (setting sl)) = value (setting sl)) (lines st').
Proof.
  intros Hst Hstep.
  destruct (parseLine_lines st raw err st' Hstep) as [->|(k & v & Hkv & ->)];
    [done|].
  apply Forall_app. split; [done|]. apply Forall_singleton. simpl.
  apply keyValRegex_iff in Hkv as (Hline & _ & _ & Hv & _).
  apply (trimRight_value k v Hv). rewrite <- Hline. apply trimRight_TrimSpace.
Qed.

Lemma parseLoop_stripped rds : ∀ st result,
  Forall (λ sl, trimRight (value (setting sl)) = value (setting sl)) (lines st) →
  parseLoop rds st = inr result →
  Forall (λ sl, trimRight (value (setting sl)) = value (setting sl)) result.
Proof.
  induction rds as [|[raw err] rds IH]; intros st result Hst;
    cbn [parseLoop]; [by intros [= <-]|].
  destruct (parseLine st (raw, err)) as [st'|st'|e] eqn:Hrd; [| |done].
  - apply IH. apply (parseLine_stripped st raw err); [done|by left].
  - intros [= <-]. apply (parseLine_stripped st raw err); [done|by right].
Qed.

Lemma applied_elem order : ∀ l e,
  e ∈ applied l order → ∃ sl, sl ∈ l ∧ setting sl = e.
Proof.
  induction order as [|p ps IH]; intros l e; simpl.
  - by intros ?%elem_of_nil.
  - rewrite elem_of_app. intros [Hin|Hin].
    + apply list_elem_of_fmap in Hin as (sl & -> & Hsl).
      apply list_elem_of_filter in Hsl as [_ Hsl]. by exists sl.
    + destruct (IH _ _ Hin) as (sl & Hsl & <-).
      apply list_elem_of_filter in Hsl as [_ Hsl]. by exists sl.
Qed.

Lemma joinLines_append ls : ∀ s,
  joinLines ls EmptyString +:+ s = joinLines ls s.
Proof.
  induction ls as [|l ls IH]; intros s; [done|]. simpl.
  by rewrite !append_assoc, IH.
Qed.

Lemma render_joinLines out :
  render out
  = joinLines ((λ e, key e +:+ "=" +:+ value e) <$> out) EmptyString.
Proof.
  induction out as [|e out IH]; [done|]. simpl. rewrite IH.
  unfold settingLine. by rewrite !append_assoc.
Qed.

Lemma parseLoop_rendered out : ∀ st,
  Forall (λ e, key e ≠ EmptyString ∧ all_word (key e)
               ∧ value e ≠ EmptyString ∧ no_newline (value e)
               ∧ trimRight (value e) = value e) out →
  parseLoop (((λ l, (l +:+ nl, ErrNil))
                <$> ((λ e, key e +:+ "=" +:+ value e) <$> out))
             ++ [(EmptyString, ErrEOF)]) st
  = inr (lines st ++ (SectionLine (curProfile st) <$> out)).
Proof.
  induction out as [|[k v] out IH]; intros st Hall.
  - simpl. by rewrite app_nil_r.
  - apply Forall_cons in Hall as [(Hk & Hw & Hv & Hn & Hfix) Hall].
    simpl in Hk, Hw, Hv, Hn, Hfix. rewrite !fmap_cons, <- app_comm_cons.
    cbn [parseLoop key value].
    rewrite (parseLine_setting st _ ErrNil k v);
      [|done|by apply TrimSpace_setting_line|done..].
    unfold afterLine. rewrite bool_decide_false by done.
    rewrite IH by done. simpl. by rewrite <- (assoc_L (++)).
Qed.

Lemma default_records_back (out : list kv) :
  setting <$> filter (λ sl, profile sl = defaultProfileName)
                (SectionLine defaultProfileName <$> out)
  = out.
Proof.
  induction out as [|e out IH]; [done|].
  rewrite fmap_cons, filter_cons_True by done.
  rewrite fmap_cons. simpl. by rewrite IH.
Qed.

(** X20.  The text that [fillConfig] writes for a parsed template is itself a
    template that the parser accepts: it parses to the printed settings,
    all under "default" and in the printed order, and resolving "default"
    on that template prints the same text again. *)
Theorem printed_text_is_template σ tpl text l selected :
  parseText text = inr l → slice_view σ tpl = Some l → selected ≠ [] →
  ∃ out printed,
    output σ tpl selected = Some printed
    ∧ printed = header +:+ render out
    ∧ parseText printed = inr (SectionLine defaultProfileName <$> out)
    ∧ (∀ σ' tpl',
         slice_view σ' tpl' = Some (SectionLine defaultProfileName <$> out) →
         output σ' tpl' ["default"] = Some printed).
Proof.
  intros Hparse Hv Hsel.
  exists (resolved l selected), (header +:+ render (resolved l selected)).
  split; [by apply output_spec|]. split; [done|]. split.
  - assert (Forall (λ e, key e ≠ EmptyString ∧ all_word (key e)
                         ∧ value e ≠ EmptyString ∧ no_newline (value e)
                         ∧ trimRight (value e) = value e)
              (resolved l selected)) as Hok.
    { apply Forall_forall. intros e He. unfold resolved in He.
      apply lastWrites_subset, applied_elem in He as (sl & Hsl & <-).
      pose proof (parseLoop_keeps_ok _ initState l eq_refl (Forall_nil_2 _)
                    Hparse) as Hwf.
      pose proof (parseLoop_stripped _ initState l (Forall_nil_2 _) Hparse)
        as Hstr.
      rewrite Forall_forall in Hwf, Hstr.
      destruct (Hwf sl Hsl) as (_ & ? & ? & ? & ?). by rewrite (Hstr sl Hsl). }
    rewrite render_joinLines.
    change header
      with (joinLines ["# Generated by tcprofiles command"; EmptyString]
              EmptyString).
    rewrite joinLines_append. unfold parseText.
    rewrite readStrings_joinLines by (by repeat constructor).
    rewrite readStrings_joinLines.
    2:{ apply Forall_fmap, Forall_forall. intros e He. simpl.
        rewrite Forall_forall in Hok. destruct (Hok e He) as (_ & Hw & _ & Hn & _).
        rewrite !no_newline_append. apply andb_prop_intro.
        split; [by apply all_word_no_newline|]. by apply andb_prop_intro. }
    change (readStrings EmptyString) with [(EmptyString, ErrEOF)].
    rewrite parseLoop_app.
    change (advance _ initState)
      with (Some (ParseState defaultProfileName 2 [])).
    cbv iota beta. by rewrite parseLoop_rendered.
  - intros σ' tpl' Hv'. rewrite (output_spec _ _ _ _ Hv') by done.
    do 2 f_equal. unfold resolved at 1.
    change (effective_order ["default"]) with [defaultProfileName].
    rewrite applied_cons. simpl applied. rewrite app_nil_r.
    rewrite default_records_back. f_equal.
    apply lastWrites_distinct, lastWrites_NoDup.
Qed.

Lemma printed_text_is_template_witness :
  ∃ out printed,
    output (store_of scenario) (whole scenario) ["bat"] = Some printed
    ∧ printed = header +:+ render out
    ∧ parseText printed = inr (SectionLine defaultProfileName <$> out)
    ∧ (∀ σ' tpl',
         slice_view σ' tpl' = Some (SectionLine defaultProfileName <$> out) →
         output σ' tpl' ["default"] = Some printed).
Proof.
  apply (printed_text_is_template (store_of scenario) (whole scenario)
           scenario_text scenario ["bat"]);
    [vm_compute; reflexivity | reflexivity | discriminate].
Defined.
